(** * Ransomware group statistics extractor: aggregation and reporting

    A shallow embedding of [ransomware_group_statistics.py] and the
    verification of its documented properties.

    Modelling conventions.
    - A victim record is a JSON object whose fields hold strings or [null]
      (the API contract); it is a finite map from field names to [pyval].
    - Python dictionaries keep their keys in insertion order, and the
      ranking of [Counter.most_common] depends on that order, so every
      dictionary the program builds is an association list with unique
      keys, new keys appended at the end ([odict]).
    - [defaultdict.__getitem__] inserts the default on a missing key: a read
      returns the value together with the dictionary after the read.
    - Counts are Python integers (unbounded): [nat].
    - [datetime.fromisoformat] and [strftime] belong to the Python runtime;
      the development is parametric in them.
    - A file is written in two steps, as in the source: [open(path, "w")]
      creates or empties the file, then the text is written to it.  Either
      step can raise; a write that raises leaves the file with what had
      reached it, and the program does not remove it. *)

From Stdlib Require Import Ascii String.
From stdpp Require Import base option list strings gmap pretty sorting.

(** ** Python values and truthiness *)

Inductive pyval :=
  | PyNone
  | PyStr (s : string).

Global Instance pyval_eq_dec : EqDecision pyval.
Proof. solve_decision. Defined.

(** [bool(v)]: [None] and the empty string are falsy. *)
Definition truthy (v : pyval) : bool :=
  match v with
  | PyNone => false
  | PyStr s => negb (String.eqb s "")
  end.

(** [v or d] where [d] is a string literal. *)
Definition py_or (v : pyval) (d : string) : string :=
  match v with
  | PyNone => d
  | PyStr s => if truthy v then s else d
  end.

(** A victim record, and [victim.get(key)] (which yields [None] for a
    missing key). *)
Abbreviation victim := (gmap string pyval).

Definition dict_get (d : victim) (key : string) : pyval :=
  default PyNone (d !! key).

(** ** Insertion-ordered dictionaries *)

Abbreviation odict V := (list (string * V)).

Section odict.
Context {V : Type}.

Fixpoint od_lookup (k : string) (d : odict V) : option V :=
  match d with
  | [] => None
  | (k', v) :: d' => if decide (k' = k) then Some v else od_lookup k d'
  end.

Definition od_keys (d : odict V) : list string := d.*1.

(** [d[k] = v]: overwrite in place, or append a new key. *)
Fixpoint od_setitem (k : string) (v : V) (d : odict V) : odict V :=
  match d with
  | [] => [(k, v)]
  | (k', v') :: d' =>
      if decide (k' = k) then (k', v) :: d'
      else (k', v') :: od_setitem k v d'
  end.

(** [d[k]] on a [defaultdict] with default factory [dflt]: the value read
    and the dictionary after the read. *)
Definition defaultdict_getitem (dflt : V) (k : string) (d : odict V)
  : V * odict V :=
  match od_lookup k d with
  | Some v => (v, d)
  | None => (dflt, d ++ [(k, dflt)])
  end.

(** [d[k]] is read from a [defaultdict] and the object found there is
    mutated by [f]. *)
Definition defaultdict_modify (dflt : V) (k : string) (f : V → V)
    (d : odict V) : odict V :=
  let '(v, d1) := defaultdict_getitem dflt k d in
  od_setitem k (f v) d1.
End odict.

(** ** [collections.Counter] *)

Abbreviation Counter := (odict nat).

(** [c[k]]: a missing key counts zero and is not inserted. *)
Definition counter_get (k : string) (c : Counter) : nat :=
  default 0 (od_lookup k c).

(** [c[k] += 1] *)
Definition counter_incr (k : string) (c : Counter) : Counter :=
  od_setitem k (counter_get k c + 1) c.

(** [sum(c.values())] *)
Definition counter_sum (c : Counter) : nat := sum_list c.*2.

(** ** The aggregation *)

Record month_data := MonthData {
  total : nat;
  sectors : Counter;
  countries : Counter;
  country_sectors : odict Counter
}.

(** The default factory of [monthly_data]. *)
Definition new_month : month_data :=
  {| total := 0; sectors := []; countries := []; country_sectors := [] |}.

Definition incr_total (e : month_data) : month_data :=
  {| total := total e + 1; sectors := sectors e;
     countries := countries e; country_sectors := country_sectors e |}.

Definition incr_sector (sector : string) (e : month_data) : month_data :=
  {| total := total e; sectors := counter_incr sector (sectors e);
     countries := countries e; country_sectors := country_sectors e |}.

Definition incr_country (country : string) (e : month_data) : month_data :=
  {| total := total e; sectors := sectors e;
     countries := counter_incr country (countries e);
     country_sectors := country_sectors e |}.

Definition incr_country_sector (country sector : string) (e : month_data)
  : month_data :=
  {| total := total e; sectors := sectors e; countries := countries e;
     country_sectors :=
       defaultdict_modify [] country (counter_incr sector)
         (country_sectors e) |}.

Abbreviation monthly_data := (odict month_data).

Section aggregator.
(** The calendar interface of the Python runtime: [fromisoformat]
    answers [None] where Python raises, and [strftime dt] is
    [dt.strftime("%Y-%m")]. *)
Context {datetime : Type}.
Variable fromisoformat : string → option datetime.
Variable strftime : datetime → string.

(** The [try] block of [process_victims]: any exception skips the
    record. *)
Definition try_month_key (discovered : pyval) : option string :=
  match discovered with
  | PyNone => None
  | PyStr s => strftime <$> fromisoformat s
  end.

(** One iteration of the loop of [process_victims]. *)
Definition process_victim (md : monthly_data) (v : victim) : monthly_data :=
  let discovered := dict_get v "discovered" in
  if negb (truthy discovered) then md
  else
    match try_month_key discovered with
    | None => md
    | Some month_key =>
        let md := defaultdict_modify new_month month_key incr_total md in
        let sector := py_or (dict_get v "activity") "Not Identified" in
        let country := py_or (dict_get v "country") "Not Identified" in
        let md :=
          defaultdict_modify new_month month_key (incr_sector sector) md in
        let md :=
          defaultdict_modify new_month month_key (incr_country country) md in
        defaultdict_modify new_month month_key
          (incr_country_sector country sector) md
    end.

Definition process_victims (victims : list victim) : monthly_data :=
  fold_left process_victim victims [].
End aggregator.

(** ** Ranking *)

(** [sorted(d)] for a dictionary with string keys: the keys in ascending
    order.  Python compares strings by code point, which on UTF-8 encoded
    text is the byte-wise lexicographic order of [String.leb]. *)
Fixpoint insert_key (k : string) (l : list string) : list string :=
  match l with
  | [] => [k]
  | k' :: l' => if String.leb k k' then k :: l else k' :: insert_key k l'
  end.

Definition sorted (keys : list string) : list string :=
  foldr insert_key [] keys.

(** [sorted(items, key=itemgetter(1), reverse=True)]: stable, so entries
    with equal counts keep the order they have in the dictionary. *)
Fixpoint insert_by_count (x : string * nat) (l : list (string * nat))
  : list (string * nat) :=
  match l with
  | [] => [x]
  | y :: l' =>
      if decide (x.2 < y.2) then y :: insert_by_count x l' else x :: l
  end.

Definition sorted_by_count (items : list (string * nat))
  : list (string * nat) :=
  foldr insert_by_count [] items.

(** [c.most_common(n)], that is [heapq.nlargest(n, c.items(), key=...)],
    documented as the first [n] entries of the stable descending sort. *)
Definition most_common (n : nat) (c : Counter) : list (string * nat) :=
  take n (sorted_by_count c).

(** ** The shaped result built by [build_json_output] *)

Record sector_entry := SectorEntry {
  sector : string;
  count : nat
}.

Record country_entry := CountryEntry {
  country : string;
  country_count : nat;
  country_top_sectors : list sector_entry
}.

Record month_summary := MonthSummary {
  total_victims : nat;
  top_sectors : list sector_entry;
  top_countries : list country_entry
}.

Definition sector_entries (l : list (string * nat)) : list sector_entry :=
  (λ '(sec, sec_count), {| sector := sec; count := sec_count |}) <$> l.

(** The body of the loop over [top_countries]; the state is the list built
    so far and the month's [country_sectors], which the lookup may extend. *)
Definition json_country (acc : list country_entry * odict Counter)
    (item : string * nat) : list country_entry * odict Counter :=
  let '(countries_list, cs) := acc in
  let '(ctry, cnt) := item in
  let '(breakdown, cs) := defaultdict_getitem [] ctry cs in
  let sectors_breakdown := most_common 3 breakdown in
  (countries_list ++
     [{| country := ctry; country_count := cnt;
         country_top_sectors := sector_entries sectors_breakdown |}],
   cs).

Definition set_country_sectors (cs : odict Counter) (e : month_data)
  : month_data :=
  {| total := total e; sectors := sectors e; countries := countries e;
     country_sectors := cs |}.

(** The body of the loop over the sorted months; [data] aliases
    [monthly_data[month]], so what the lookups add to its
    [country_sectors] is written back. *)
Definition json_month (acc : odict month_summary * monthly_data)
    (month : string) : odict month_summary * monthly_data :=
  let '(output, md) := acc in
  let '(data, md) := defaultdict_getitem new_month month md in
  let top_secs := most_common 10 (sectors data) in
  let top_ctrs := most_common 10 (countries data) in
  let '(countries_list, cs) :=
    fold_left json_country top_ctrs ([], country_sectors data) in
  let md := od_setitem month (set_country_sectors cs data) md in
  (od_setitem month
     {| total_victims := total data;
        top_sectors := sector_entries top_secs;
        top_countries := countries_list |} output,
   md).

(** [build_json_output]: the output and [monthly_data] as the call leaves
    it. *)
Definition build_json_output (md : monthly_data)
  : odict month_summary * monthly_data :=
  fold_left json_month (sorted (od_keys md)) ([], md).

(** ** Output events *)

Definition chr (n : nat) : string := String (ascii_of_nat n) EmptyString.

Definition LF : string := chr 10.
Definition CR : string := chr 13.
Definition QUOTE : string := chr 34.

Inductive event :=
  | Stdout (text : string)              (* text written to standard output *)
  | FileOpen (path : string)            (* file created, or truncated to empty *)
  | FileWrite (path content : string).  (* text that has reached the open file *)

(** [print(s)] *)
Definition print (s : string) : event := Stdout (s +:+ LF).

(** [str(n)] for an integer. *)
Definition str (n : nat) : string := pretty n.

(** The [colorama] constants the program uses. *)
Module Fore.
Definition YELLOW : string := chr 27 +:+ "[33m".
Definition CYAN : string := chr 27 +:+ "[36m".
Definition GREEN : string := chr 27 +:+ "[32m".
Definition MAGENTA : string := chr 27 +:+ "[35m".
Definition BLUE : string := chr 27 +:+ "[34m".
End Fore.

Module Style.
Definition RESET_ALL : string := chr 27 +:+ "[0m".
End Style.

(** ** The text presenter *)

Definition print_sector (item : string * nat) : event :=
  print ("    - " +:+ item.1 +:+ ": " +:+ str item.2).

Definition print_breakdown (item : string * nat) : event :=
  print ("         * " +:+ item.1 +:+ ": " +:+ str item.2).

(** The body of the loop over [top_countries]. *)
Definition text_country (acc : list event * odict Counter)
    (item : string * nat) : list event * odict Counter :=
  let '(out, cs) := acc in
  let '(ctry, cnt) := item in
  let out := out ++ [print ("    - " +:+ ctry +:+ ": " +:+ str cnt)] in
  let '(breakdown, cs) := defaultdict_getitem [] ctry cs in
  let sectors_breakdown := most_common 3 breakdown in
  match sectors_breakdown with
  | [] => (out, cs)
  | _ =>
      (out ++ [print ("       " +:+ Fore.YELLOW +:+ "Affected sectors:")]
           ++ (print_breakdown <$> sectors_breakdown),
       cs)
  end.

(** The body of the loop over the sorted months. *)
Definition text_month (acc : list event * monthly_data) (month : string)
  : list event * monthly_data :=
  let '(out, md) := acc in
  let '(data, md) := defaultdict_getitem new_month month md in
  let top_secs := most_common 10 (sectors data) in
  let top_ctrs := most_common 10 (countries data) in
  let out :=
    out ++ [print (LF +:+ Fore.CYAN +:+ "Month: " +:+ month
                     +:+ Style.RESET_ALL);
            print ("  " +:+ Fore.GREEN +:+ "Total victims: "
                     +:+ str (total data) +:+ Style.RESET_ALL);
            print ("  " +:+ Fore.MAGENTA +:+ "Top sectors:")]
        ++ (print_sector <$> top_secs)
        ++ [print ("  " +:+ Fore.BLUE +:+ "Top countries:")] in
  let '(out, cs) :=
    fold_left text_country top_ctrs (out, country_sectors data) in
  let md := od_setitem month (set_country_sectors cs data) md in
  (out ++ [print Style.RESET_ALL], md).

(** [print_monthly_summary]: what it prints and [monthly_data] as the call
    leaves it. *)
Definition print_monthly_summary (md : monthly_data)
  : list event * monthly_data :=
  match md with
  | [] =>
      ([print (Fore.YELLOW +:+ "No data to display." +:+ Style.RESET_ALL)],
       md)
  | _ => fold_left text_month (sorted (od_keys md)) ([], md)
  end.

(** ** JSON serialisation: [json.dumps(obj, indent=4, ensure_ascii=False)] *)

Local Unset Elimination Schemes.
Inductive json :=
  | JInt (n : nat)
  | JString (s : string)
  | JList (items : list json)
  | JDict (items : list (string * json)).
Local Set Elimination Schemes.

Definition hex_digit (n : nat) : string :=
  if decide (n < 10) then chr (48 + n) else chr (87 + n).

(** The escapes of [json.encoder.ESCAPE_DCT]; with [ensure_ascii=False]
    every other character is written as it is. *)
Definition json_escape (c : ascii) : string :=
  let n := nat_of_ascii c in
  if decide (n = 34) then "\" +:+ QUOTE
  else if decide (n = 92) then "\\"
  else if decide (n = 10) then "\n"
  else if decide (n = 13) then "\r"
  else if decide (n = 9) then "\t"
  else if decide (n = 8) then "\b"
  else if decide (n = 12) then "\f"
  else if decide (n < 32) then
    "\u00" +:+ hex_digit (n / 16) +:+ hex_digit (n mod 16)
  else String c EmptyString.

Definition json_string (s : string) : string :=
  QUOTE +:+ String.concat "" (json_escape <$> list_ascii_of_string s)
        +:+ QUOTE.

Definition indentation (level : nat) : string :=
  String.concat "" (replicate level "    ").

Fixpoint json_encode (level : nat) (j : json) : string :=
  let newline_indent := LF +:+ indentation (S level) in
  match j with
  | JInt n => str n
  | JString s => json_string s
  | JList [] => "[]"
  | JList items =>
      "[" +:+ newline_indent
          +:+ String.concat ("," +:+ newline_indent)
                (json_encode (S level) <$> items)
          +:+ LF +:+ indentation level +:+ "]"
  | JDict [] => "{}"
  | JDict items =>
      "{" +:+ newline_indent
          +:+ String.concat ("," +:+ newline_indent)
                ((λ kv, json_string kv.1 +:+ ": "
                          +:+ json_encode (S level) kv.2) <$> items)
          +:+ LF +:+ indentation level +:+ "}"
  end.

Definition json_dumps (j : json) : string := json_encode 0 j.

(** The Python object [build_json_output] returns, as a JSON value. *)
Definition sector_json (e : sector_entry) : json :=
  JDict [("sector", JString (sector e)); ("count", JInt (count e))].

Definition country_json (e : country_entry) : json :=
  JDict [("country", JString (country e));
         ("count", JInt (country_count e));
         ("top_sectors", JList (sector_json <$> country_top_sectors e))].

Definition summary_json (s : month_summary) : json :=
  JDict [("total_victims", JInt (total_victims s));
         ("top_sectors", JList (sector_json <$> top_sectors s));
         ("top_countries", JList (country_json <$> top_countries s))].

Definition output_json (output : odict month_summary) : json :=
  JDict (prod_map id summary_json <$> output).

(** ** The CSV presenter *)

Record csv_row := CsvRow {
  Month : string;
  Total_Victims : nat;
  Top_Sectors : string;
  Top_Countries : string
}.

(** [f"{item['sector']}: {item['count']}"] *)
Definition format_sector (item : sector_entry) : string :=
  sector item +:+ ": " +:+ str (count item).

(** [f"{country} ({count}): [{sectors_detail}]"] *)
Definition format_country (country_info : country_entry) : string :=
  let sectors_detail :=
    String.concat ", " (format_sector <$> country_top_sectors country_info) in
  country country_info +:+ " (" +:+ str (country_count country_info)
    +:+ "): [" +:+ sectors_detail +:+ "]".

Definition csv_row_of (month : string) (summary : month_summary) : csv_row :=
  {| Month := month;
     Total_Victims := total_victims summary;
     Top_Sectors := String.concat ", " (format_sector <$> top_sectors summary);
     Top_Countries :=
       String.concat "; " (format_country <$> top_countries summary) |}.

(** The rows [write_csv_output] collects.  [json_data[month]] is a plain
    dictionary lookup of a key taken from the dictionary itself. *)
Definition csv_rows (json_data : odict month_summary) : list csv_row :=
  omap (λ month, csv_row_of month <$> od_lookup month json_data)
       (sorted (od_keys json_data)).

(** [csv.DictWriter] with the default dialect: a field is quoted when it
    holds the delimiter, the quote character or a line break; a quote
    inside a quoted field is doubled; lines end in CR LF. *)
Definition csv_special (c : ascii) : bool :=
  bool_decide (nat_of_ascii c ∈ [44; 34; 13; 10]).

Definition csv_double_quote (c : ascii) : string :=
  if decide (nat_of_ascii c = 34) then QUOTE +:+ QUOTE
  else String c EmptyString.

Definition csv_field (s : string) : string :=
  if existsb csv_special (list_ascii_of_string s)
  then QUOTE +:+ String.concat "" (csv_double_quote <$> list_ascii_of_string s)
             +:+ QUOTE
  else s.

Definition csv_line (fields : list string) : string :=
  String.concat "," (csv_field <$> fields) +:+ CR +:+ LF.

Definition header : list string :=
  ["Month"; "Total Victims"; "Top Sectors"; "Top Countries"].

Definition csv_fields (row : csv_row) : list string :=
  [Month row; str (Total_Victims row); Top_Sectors row; Top_Countries row].

(** [writer.writeheader(); writer.writerows(rows)] *)
Definition csv_text (rows : list csv_row) : string :=
  csv_line header +:+ String.concat "" (csv_line ∘ csv_fields <$> rows).

(** ** The environment of a run *)

(** What [requests.get] followed by [response.json()] can do: raise, or
    answer with a status code and a body that parses to a sequence of
    records or makes [json()] raise. *)
Inductive http_result :=
  | HttpRaises (e : string)
  | HttpResponse (status_code : nat) (body : string + list victim).

(** What writing a text to a file that has been opened does, up to the
    close at the end of the [with] block: it completes, or it raises after
    some text (possibly none) has reached the file.  The CSV writer writes
    the header and the rows line by line: [file_write] stands for all of
    these writes, and [reached] for what the lines written before the
    failure left in the file. *)
Inductive write_result :=
  | Written
  | WriteRaises (reached : string) (e : string).

(** [file_open path] is what [open(path, "w", ...)] does: [None] when the
    file is opened, which creates it or truncates it, and the text of the
    exception otherwise.  [file_write path content] is what writing
    [content] to the file opened at [path] does. *)
Record environment := Environment {
  requests_get : string → http_result;
  file_open : string → option string;
  file_write : string → string → write_result
}.

(** [if s:] for an optional string. *)
Definition given (s : option string) : option string :=
  match s with
  | Some path => if String.eqb path "" then None else Some path
  | None => None
  end.

Definition write_csv_output (env : environment)
    (json_data : odict month_summary) (output_file : option string)
  : list event :=
  let rows := csv_rows json_data in
  match given output_file with
  | Some path =>
      match file_open env path with
      | None =>
          FileOpen path ::
          match file_write env path (csv_text rows) with
          | Written =>
              [FileWrite path (csv_text rows);
               print ("CSV output successfully saved to: " +:+ path)]
          | WriteRaises reached e =>
              [FileWrite path reached;
               print ("An error occurred while writing the CSV file: "
                        +:+ e)]
          end
      | Some e =>
          [print ("An error occurred while writing the CSV file: " +:+ e)]
      end
  | None => [Stdout (csv_text rows)]
  end.

(** ** The fetcher *)

Definition base_url : string := "https://api.ransomware.live/v2/groupvictims/".

(** [get_victims_by_group]: what it prints and what it returns. *)
Definition get_victims_by_group (env : environment) (group_name : string)
  : list event * list victim :=
  let url := base_url +:+ group_name in
  match requests_get env url with
  | HttpRaises e => ([print ("An error occurred: " +:+ e)], [])
  | HttpResponse status_code body =>
      if decide (status_code = 200) then
        match body with
        | inr victims => ([], victims)
        | inl e => ([print ("An error occurred: " +:+ e)], [])
        end
      else ([print ("Error: " +:+ str status_code)], [])
  end.

(** ** The command line program *)

Inductive output_format := Normal | Json | Csv.

Record arguments := Args {
  group : string;
  format : output_format;
  output : option string
}.

(** The outcome of a run: everything written, in order, and the object bound
    to the local [monthly_data] when [main] returns ([None] when the
    aggregator was never called). *)
Record run := Run {
  trace : list event;
  aggregated : option monthly_data
}.

Definition no_victims_message : string :=
  "No victims found or an error occurred when querying the ransomware.live API. Is it DOWN?".

Section program.
Context {datetime : Type}.
Variable fromisoformat : string → option datetime.
Variable strftime : datetime → string.
(** [str.strip] and [str.lower] of the Python runtime. *)
Variable strip lower : string → string.

(** The [json] branch of [main]. *)
Definition write_json_output (env : environment) (json_string : string)
    (output_file : option string) : list event :=
  match given output_file with
  | Some path =>
      match file_open env path with
      | None =>
          FileOpen path ::
          match file_write env path json_string with
          | Written =>
              [FileWrite path json_string;
               print ("JSON output successfully saved to file: " +:+ path)]
          | WriteRaises reached e =>
              [FileWrite path reached;
               print ("An error occurred while writing the JSON file: "
                        +:+ e)]
          end
      | Some e =>
          [print ("An error occurred while writing the JSON file: " +:+ e)]
      end
  | None => [print json_string]
  end.

(** The presenter selected by [--format], applied to [monthly_data]. *)
Definition render (env : environment) (args : arguments)
    (md : monthly_data) : list event * monthly_data :=
  match format args with
  | Normal => print_monthly_summary md
  | Json =>
      let '(out, md) := build_json_output md in
      (write_json_output env (json_dumps (output_json out)) (output args),
       md)
  | Csv =>
      let '(out, md) := build_json_output md in
      (write_csv_output env out (output args), md)
  end.

Definition main (env : environment) (args : arguments) : run :=
  let group_name := lower (strip (group args)) in
  let start :=
    [print ("Searching for victims for the group: " +:+ group_name
              +:+ " ...")] in
  let '(diagnostics, victims) := get_victims_by_group env group_name in
  match victims with
  | [] =>
      {| trace := start ++ diagnostics ++ [print no_victims_message];
         aggregated := None |}
  | _ =>
      let md := process_victims fromisoformat strftime victims in
      let '(report, md) := render env args md in
      {| trace := start ++ diagnostics ++ report;
         aggregated := Some md |}
  end.
End program.

(** ** A reference calendar for concrete runs

    The calendar dates [YYYY-MM-DD] from the year 1000 on, which every
    version of [datetime.fromisoformat] accepts and for which [%Y-%m] is
    four digits, a dash and two digits on every platform.  The examples
    below run the program on such dates only. *)
Module Calendar.
Record date := Date { year : nat; month : nat; day : nat }.

Definition digit (c : ascii) : option nat :=
  let n := nat_of_ascii c in
  if decide (48 ≤ n ≤ 57) then Some (n - 48) else None.

Fixpoint number (acc : nat) (cs : list ascii) : option nat :=
  match cs with
  | [] => Some acc
  | c :: cs' => d ← digit c; number (10 * acc + d) cs'
  end.

Definition leap (y : nat) : bool :=
  bool_decide (y mod 4 = 0 ∧ (y mod 100 ≠ 0 ∨ y mod 400 = 0)).

Definition days_in_month (y m : nat) : nat :=
  if bool_decide (m = 2) then (if leap y then 29 else 28)
  else if bool_decide (m ∈ [4; 6; 9; 11]) then 30 else 31.

Definition fromisoformat (s : string) : option date :=
  match list_ascii_of_string s with
  | [y1; y2; y3; y4; d1; m1; m2; d2; a; b] =>
      if bool_decide (nat_of_ascii d1 = 45 ∧ nat_of_ascii d2 = 45) then
        y ← number 0 [y1; y2; y3; y4];
        m ← number 0 [m1; m2];
        d ← number 0 [a; b];
        if bool_decide (1000 ≤ y ∧ 1 ≤ m ≤ 12 ∧ 1 ≤ d ≤ days_in_month y m)
        then Some (Date y m d) else None
      else None
  | _ => None
  end.

Definition pad (width : nat) (n : nat) : string :=
  String.concat "" (replicate (width - String.length (pretty n)) "0")
    +:+ pretty n.

Definition strftime (d : date) : string :=
  pad 4 (year d) +:+ "-" +:+ pad 2 (month d).
End Calendar.

(** ** Sample inputs *)

(** The aggregator on the reference calendar. *)
Abbreviation run_process_victims :=
  (process_victims Calendar.fromisoformat Calendar.strftime).

Definition sample_record (d a c : string) : victim :=
  {[ "discovered" := PyStr d; "activity" := PyStr a; "country" := PyStr c ]}.

(** The scenario of section 8 of the specification. *)
Definition sample_victims : list victim :=
  [sample_record "2023-01-05" "Healthcare" "US";
   sample_record "2023-01-20" "Healthcare" "US";
   sample_record "2023-02-01" "Finance" "DE"].

Definition sample_aggregation : monthly_data :=
  [("2023-01",
    {| total := 2; sectors := [("Healthcare", 2)]; countries := [("US", 2)];
       country_sectors := [("US", [("Healthcare", 2)])] |});
   ("2023-02",
    {| total := 1; sectors := [("Finance", 1)]; countries := [("DE", 1)];
       country_sectors := [("DE", [("Finance", 1)])] |})].

(** A record with a date that does not parse, one with a date only, and
    three records of two months in which a sector met first in January is
    met second in February. *)
Definition unparsable_record : victim := {[ "discovered" := PyStr "soon" ]}.

Definition bare_record : victim := {[ "discovered" := PyStr "2023-03-09" ]}.

Definition tie_victims : list victim :=
  [sample_record "2023-01-05" "Energy" "US";
   sample_record "2023-02-01" "Finance" "DE";
   sample_record "2023-02-02" "Energy" "FR"].

(** What [build_json_output] holds for February in [tie_victims]. *)
Definition tie_february : month_summary :=
  {| total_victims := 2;
     top_sectors := [SectorEntry "Finance" 1; SectorEntry "Energy" 1];
     top_countries :=
       [CountryEntry "DE" 1 [SectorEntry "Finance" 1];
        CountryEntry "FR" 1 [SectorEntry "Energy" 1]] |}.

(** A world in which the API answers 404 and every file can be written. *)
Definition not_found : environment :=
  {| requests_get := λ _, HttpResponse 404 (inl "Expecting value");
     file_open := λ _, None;
     file_write := λ _ _, Written |}.

Definition sample_arguments : arguments :=
  {| group := "lockbit"; format := Csv; output := Some "report.csv" |}.

(** * Descriptions of the tables

    The definitions of this part are not code of the program: they say what
    its tables hold, and the verification below relates the two. *)

(** The distinct elements of a list in the order of their first
    occurrence. *)
Fixpoint first_seen (ks : list string) : list string :=
  match ks with
  | [] => []
  | k :: ks' => k :: filter (λ x, x ≠ k) (first_seen ks')
  end.

(** Every table of the aggregation is filled by a loop that, for each item
    [a], reads the entry at [key a] (or the default) and stores [f a] of
    it. *)
Section grouped.
Context {A V : Type}.
Variable key : A → string.
Variable dflt : V.
Variable f : A → V → V.

Definition od_apply (d : odict V) (a : A) : odict V :=
  od_setitem (key a) (f a (default dflt (od_lookup (key a) d))) d.

Definition od_group (xs : list A) : odict V := fold_left od_apply xs [].
End grouped.

(** The counter a loop of [c[key a] += 1] over [xs] builds. *)
Definition tally {A} (key : A → string) (xs : list A) : Counter :=
  od_group key 0 (λ _ n, n + 1) xs.

(** How one record is aggregated (lines 47 to 62 of the source): the month
    it falls in, if any, and the sector and country it counts for. *)
Definition sector_of (v : victim) : string :=
  py_or (dict_get v "activity") "Not Identified".

Definition country_of (v : victim) : string :=
  py_or (dict_get v "country") "Not Identified".

Section month_tables.
Context {datetime : Type}.
Variable fromisoformat : string → option datetime.
Variable strftime : datetime → string.

Definition month_of (v : victim) : option string :=
  let discovered := dict_get v "discovered" in
  if truthy discovered then try_month_key fromisoformat strftime discovered
  else None.

(** The aggregated records with their months, in the order of the
    input. *)
Definition dated (vs : list victim) : list (string * victim) :=
  omap (λ v, (λ m, (m, v)) <$> month_of v) vs.

(** The records of month [m], in the order of the input. *)
Definition month_victims (m : string) (vs : list victim) : list victim :=
  filter (λ v, month_of v = Some m) vs.

(** A record whose [discovered] field is missing, falsy, or a string
    that fails to parse. *)
Definition undated (v : victim) : Prop :=
  v !! "discovered" = None
  ∨ truthy (dict_get v "discovered") = false
  ∨ ∃ s, v !! "discovered" = Some (PyStr s) ∧ fromisoformat s = None.
End month_tables.

(** A field that is missing or falsy. *)
Definition absent (field : string) (v : victim) : Prop :=
  v !! field = None ∨ truthy (dict_get v field) = false.

(** The counts of an aggregation with the order of the keys forgotten. *)
Record month_counts := MonthCounts {
  counts_total : nat;
  counts_sectors : gmap string nat;
  counts_countries : gmap string nat;
  counts_country_sectors : gmap string (gmap string nat)
}.

Definition counts (c : Counter) : gmap string nat := list_to_map c.

Definition entry_counts (e : month_data) : month_counts :=
  {| counts_total := total e;
     counts_sectors := counts (sectors e);
     counts_countries := counts (countries e);
     counts_country_sectors := counts <$> list_to_map (country_sectors e) |}.

Definition aggregation_counts (md : monthly_data) : gmap string month_counts :=
  entry_counts <$> list_to_map md.

(** The effect of the four increments on a month's entry. *)
Definition add_victim (v : victim) (e : month_data) : month_data :=
  incr_country_sector (country_of v) (sector_of v)
    (incr_country (country_of v) (incr_sector (sector_of v) (incr_total e))).

(** The entry of a month whose records are [recs]. *)
Definition month_table (recs : list victim) : month_data :=
  {| total := length recs;
     sectors := tally sector_of recs;
     countries := tally country_of recs;
     country_sectors :=
       od_group country_of [] (λ v, counter_incr (sector_of v)) recs |}.

(** The ranking and shaping of section 4.3 of the specification, as a pure
    function of the aggregation: for each month in ascending order, the
    ten most common sectors, the ten most common countries and, for each
    of these, its three most common sectors. *)
Definition shape_country (cs : odict Counter) (item : string * nat)
  : country_entry :=
  {| country := item.1; country_count := item.2;
     country_top_sectors :=
       sector_entries (most_common 3 (default [] (od_lookup item.1 cs))) |}.

Definition shape_month (e : month_data) : month_summary :=
  {| total_victims := total e;
     top_sectors := sector_entries (most_common 10 (sectors e));
     top_countries :=
       shape_country (country_sectors e) <$> most_common 10 (countries e) |}.

Definition shape (md : monthly_data) : odict month_summary :=
  (λ m, (m, shape_month (default new_month (od_lookup m md))))
    <$> sorted (od_keys md).

(** The order of [sorted] on keys. *)
Definition key_le (a b : string) : Prop := String.leb a b = true.

(** Every country counted in the month has a sector table. *)
Definition closed (e : month_data) : Prop :=
  ∀ c, c ∈ od_keys (countries e) → c ∈ od_keys (country_sectors e).

Definition all_closed (md : monthly_data) : Prop :=
  ∀ m e, od_lookup m md = Some e → closed e.

(** The text report of a shaped result: the lines of each month in order,
    or the notice of an empty report. *)
Definition text_sector (bullet : string) (s : sector_entry) : event :=
  print (bullet +:+ sector s +:+ ": " +:+ str (count s)).

Definition text_country_lines (c : country_entry) : list event :=
  print ("    - " +:+ country c +:+ ": " +:+ str (country_count c)) ::
  match country_top_sectors c with
  | [] => []
  | secs =>
      print ("       " +:+ Fore.YELLOW +:+ "Affected sectors:")
        :: (text_sector "         * " <$> secs)
  end.

Definition text_month_lines (ms : string * month_summary) : list event :=
  [print (LF +:+ Fore.CYAN +:+ "Month: " +:+ ms.1 +:+ Style.RESET_ALL);
   print ("  " +:+ Fore.GREEN +:+ "Total victims: "
            +:+ str (total_victims ms.2) +:+ Style.RESET_ALL);
   print ("  " +:+ Fore.MAGENTA +:+ "Top sectors:")]
  ++ (text_sector "    - " <$> top_sectors ms.2)
  ++ [print ("  " +:+ Fore.BLUE +:+ "Top countries:")]
  ++ concat (text_country_lines <$> top_countries ms.2)
  ++ [print Style.RESET_ALL].

Definition text_of_shaped (out : odict month_summary) : list event :=
  match out with
  | [] => [print (Fore.YELLOW +:+ "No data to display." +:+ Style.RESET_ALL)]
  | _ => concat (text_month_lines <$> out)
  end.

(** ** Reading the cells of the CSV report back

    The characters that structure a cell, and the names that hold none of
    them: for such names the cells determine the entries they list. *)
Definition separator (c : ascii) : Prop :=
  nat_of_ascii c ∈ [40; 41; 44; 58; 59; 91; 93].

Definition plain_chars (cs : list ascii) : Prop :=
  Forall (λ c, ¬ separator c) cs.

Definition plain (s : string) : Prop := plain_chars (list_ascii_of_string s).

Definition plain_sectors (l : list sector_entry) : Prop :=
  Forall (λ e, plain (sector e)) l.

Definition plain_countries (l : list country_entry) : Prop :=
  Forall (λ c, plain (country c) ∧ plain_sectors (country_top_sectors c)) l.

Definition plain_summary (s : month_summary) : Prop :=
  plain_sectors (top_sectors s) ∧ plain_countries (top_countries s).

(** An output in which no name listed holds a separator. *)
Definition plain_output (out : odict month_summary) : Prop :=
  Forall (λ entry, plain_summary entry.2) out.

Global Instance separator_dec c : Decision (separator c).
Proof. unfold separator. apply _. Defined.

Global Instance plain_dec s : Decision (plain s).
Proof. unfold plain, plain_chars. apply _. Defined.

Global Instance plain_output_dec out : Decision (plain_output out).
Proof.
  unfold plain_output, plain_summary, plain_countries, plain_sectors. apply _.
Defined.



Abbreviation chars := list_ascii_of_string.

(** The text of the two list cells of a row. *)
Abbreviation sectors_cell l := (String.concat ", " (format_sector <$> l)).

Abbreviation countries_cell l := (String.concat "; " (format_country <$> l)).

(** ** The documented ranking

    Over the keys [ks] met while scanning records (one key per record, in
    scan order): how often a key occurs, where it is first met, and when
    one key is ranked before another. *)
Definition occurrences (k : string) (ks : list string) : nat :=
  length (filter (λ x, x = k) ks).

Fixpoint first_index (k : string) (ks : list string) : nat :=
  match ks with
  | [] => 0
  | k' :: ks' => if decide (k' = k) then 0 else S (first_index k ks')
  end.

(** [a] has the higher count, or the same count and is met first. *)
Definition outranks (ks : list string) (a b : string) : Prop :=
  occurrences b ks < occurrences a ks ∨
  (occurrences a ks = occurrences b ks ∧ first_index a ks < first_index b ks).

(** [top] is the list of the [n] best ranked keys of [ks] with their
    counts (all the keys when there are fewer than [n]), best first. *)
Definition ranked_top (n : nat) (ks : list string) (top : list (string * nat))
  : Prop :=
  length top = n `min` length (first_seen ks) ∧
  (∀ x, x ∈ top → x.1 ∈ ks ∧ x.2 = occurrences x.1 ks) ∧
  StronglySorted (λ x y, outranks ks x.1 y.1) top ∧
  (∀ k, k ∈ ks → k ∉ top.*1 → ∀ x, x ∈ top → outranks ks x.1 k).

(** The order a stable descending sort by count produces from an input in
    the order [before]. *)
Definition ranks_before (before : relation (string * nat))
    (x y : string * nat) : Prop :=
  y.2 < x.2 ∨ (x.2 = y.2 ∧ before x y).

Definition sector_pairs (l : list sector_entry) : list (string * nat) :=
  (λ e, (sector e, count e)) <$> l.

Definition country_pairs (l : list country_entry) : list (string * nat) :=
  (λ e, (country e, country_count e)) <$> l.

(** ** The documented outcomes of a run *)

(** The body of a successful fetch: status 200 and a body that parses. *)
Definition fetched (r : http_result) : option (list victim) :=
  match r with
  | HttpResponse status_code (inr victims) =>
      if decide (status_code = 200) then Some victims else None
  | _ => None
  end.

(** A world in which the API answers 200 with the body [victims]. *)
Definition answering (victims : list victim)
    (file_open : string → option string)
    (file_write : string → string → write_result) : environment :=
  {| requests_get := λ _, HttpResponse 200 (inr victims);
     file_open := file_open;
     file_write := file_write |}.

Definition searching_message (group_name : string) : string :=
  "Searching for victims for the group: " +:+ group_name +:+ " ...".

Definition header_line : string :=
  "Month,Total Victims,Top Sectors,Top Countries" +:+ CR +:+ LF.

(** Saving a document at [path]: when the file cannot be opened, the
    failure is reported and no file is touched; once it is opened it exists
    and is empty, the text that reaches it is the whole document when the
    write completes (reported with the message [saved] and the path) and
    what the failing write left otherwise (reported with the message
    [failed] and the text of the exception). *)
Definition saving (env : environment) (path document saved failed : string)
  : list event :=
  match file_open env path with
  | Some e => [print (failed +:+ e)]
  | None =>
      match file_write env path document with
      | Written =>
          [FileOpen path; FileWrite path document; print (saved +:+ path)]
      | WriteRaises reached e =>
          [FileOpen path; FileWrite path reached; print (failed +:+ e)]
      end
  end.

Definition json_saved : string := "JSON output successfully saved to file: ".
Definition json_failed : string :=
  "An error occurred while writing the JSON file: ".
Definition csv_saved : string := "CSV output successfully saved to: ".
Definition csv_failed : string :=
  "An error occurred while writing the CSV file: ".

(** The report of an aggregation without months, in each format. *)
Definition empty_report (env : environment) (args : arguments) : list event :=
  match format args with
  | Normal =>
      [print (Fore.YELLOW +:+ "No data to display." +:+ Style.RESET_ALL)]
  | Json =>
      match given (output args) with
      | None => [print "{}"]
      | Some path => saving env path "{}" json_saved json_failed
      end
  | Csv =>
      match given (output args) with
      | None => [Stdout header_line]
      | Some path => saving env path header_line csv_saved csv_failed
      end
  end.

(** The rows of the CSV report of a shaped result: one row for each of its
    months, in its order. *)
Definition rows_of (out : odict month_summary) : list csv_row :=
  (λ entry, csv_row_of entry.1 entry.2) <$> out.

(** The document a format makes of a shaped result. *)
Definition document (fmt : output_format) (out : odict month_summary)
  : string :=
  match fmt with
  | Csv => csv_text (rows_of out)
  | _ => json_dumps (output_json out)
  end.

(** The report of a shaped result in each format: the text report, or the
    document on standard output, or saved at the path given. *)
Definition report (env : environment) (args : arguments)
    (out : odict month_summary) : list event :=
  match format args, given (output args) with
  | Normal, _ => text_of_shaped out
  | Json, None => [print (document Json out)]
  | Json, Some path => saving env path (document Json out) json_saved json_failed
  | Csv, None => [Stdout (document Csv out)]
  | Csv, Some path => saving env path (document Csv out) csv_saved csv_failed
  end.

(** The events of a trace that touch a file. *)
Definition file_event (ev : event) : bool :=
  match ev with
  | Stdout _ => false
  | _ => true
  end.

Definition file_events (t : list event) : list event :=
  filter (λ ev, file_event ev = true) t.

(** What the file at [path] holds after [document] was written to it, or
    the write failed. *)
Definition reaches (env : environment) (path document : string) : string :=
  match file_write env path document with
  | Written => document
  | WriteRaises reached _ => reached
  end.

(** The file events of a run that fetched [victims] and shaped [out]: none
    without records, in the text format or without a path; otherwise none
    when the file cannot be opened, and else the file is opened and holds
    what the write let reach it. *)
Definition file_effects (env : environment) (args : arguments)
    (victims : list victim) (out : odict month_summary) : list event :=
  match victims, format args, given (output args) with
  | [], _, _ | _, Normal, _ | _, _, None => []
  | _, fmt, Some path =>
      match file_open env path with
      | Some _ => []
      | None =>
          [FileOpen path; FileWrite path (reaches env path (document fmt out))]
      end
  end.

(** * Readings of an aggregation

    What a consumer reads from [monthly_data]: a month without an entry has
    no victims, a key without a count counts zero. *)
Definition month_total (m : string) (md : monthly_data) : nat :=
  from_option total 0 (od_lookup m md).

Definition sector_count (m s : string) (md : monthly_data) : nat :=
  counter_get s (from_option sectors [] (od_lookup m md)).

Definition country_total (m c : string) (md : monthly_data) : nat :=
  counter_get c (from_option countries [] (od_lookup m md)).

Definition country_sector_count (m c s : string) (md : monthly_data) : nat :=
  counter_get s
    (default [] (od_lookup c (from_option country_sectors [] (od_lookup m md)))).

(** The sum of the totals of all months. *)
Definition sum_totals (md : monthly_data) : nat := sum_list (total <$> md.*2).

(** Two records that read the same in the three fields the aggregator
    looks at. *)
Definition same_fields (v v' : victim) : Prop :=
  dict_get v "discovered" = dict_get v' "discovered" ∧
  dict_get v "activity" = dict_get v' "activity" ∧
  dict_get v "country" = dict_get v' "country".

(** ** The effect of a presenter on the dictionary it reads

    The sector tables of a month after the lookups
    [data["country_sectors"][country]] of a presenter: every country
    looked up that had no table has got an empty one, at the end. *)
Definition with_tables (items : list (string * nat)) (cs : odict Counter)
  : odict Counter :=
  fold_left (λ cs item, (defaultdict_getitem [] item.1 cs).2) items cs.

Definition touched (e : month_data) : month_data :=
  set_country_sectors
    (with_tables (most_common 10 (countries e)) (country_sectors e)) e.

Definition rendered (md : monthly_data) : monthly_data :=
  (λ me, (me.1, touched me.2)) <$> md.

(** ** Further sample inputs *)

(** [bare_record] with a field the aggregator does not read. *)
Definition named_record : victim := <["victim" := PyStr "ACME"]> bare_record.

(** A dictionary that [process_victims] does not build: a country is
    counted and has no sector table. *)
Definition open_aggregation : monthly_data :=
  [("2023-01", {| total := 1; sectors := [("Energy", 1)];
                  countries := [("US", 1)]; country_sectors := [] |})].

(** Worlds in which the API answers with the scenario: one in which every
    file can be written, one in which no file can be opened, and one in
    which every file can be opened and every write fails after the first
    five characters. *)
Definition scenario_world : environment :=
  answering sample_victims (λ _, None) (λ _ _, Written).

Definition read_only_world : environment :=
  answering sample_victims (λ _, Some "Permission denied") (λ _ _, Written).

Definition full_disk_world : environment :=
  answering sample_victims (λ _, None)
    (λ _ content,
       WriteRaises (String.substring 0 5 content) "No space left on device").



(** * Verification *)

(** ** Insertion-ordered dictionaries *)

Section odict_facts.
Context {V : Type}.
Implicit Types (d : odict V) (k : string) (v : V).

Lemma od_lookup_None k d : od_lookup k d = None ↔ k ∉ od_keys d.
Proof.
  unfold od_keys. induction d as [|[k' v'] d IH]; csimpl.
  - split; [intros _; apply not_elem_of_nil | done].
  - rewrite not_elem_of_cons.
    destruct (decide (k' = k)) as [->|Hne]; [split; [done | tauto]|].
    rewrite IH. split; [auto | tauto].
Qed.

Lemma od_lookup_is_Some k d : is_Some (od_lookup k d) ↔ k ∈ od_keys d.
Proof.
  rewrite <- not_eq_None_Some, od_lookup_None.
  destruct (decide (k ∈ od_keys d)); naive_solver.
Qed.

Lemma od_elem_of_lookup k v d :
  NoDup (od_keys d) → (k, v) ∈ d → od_lookup k d = Some v.
Proof.
  unfold od_keys. induction d as [|[k' v'] d IH]; csimpl.
  - intros _ H. by apply elem_of_nil in H.
  - rewrite NoDup_cons. intros [Hk Hd] [H|H]%elem_of_cons.
    + injection H as -> ->. by rewrite decide_True.
    + rewrite decide_False; [auto|].
      intros ->. apply Hk. apply (list_elem_of_fmap_2 fst) in H. done.
Qed.

Lemma od_setitem_absent k v d :
  k ∉ od_keys d → od_setitem k v d = d ++ [(k, v)].
Proof.
  unfold od_keys. induction d as [|[k' v'] d IH]; csimpl; [done|].
  rewrite not_elem_of_cons. intros [Hne Hk].
  rewrite decide_False by done. by rewrite IH.
Qed.

Lemma od_setitem_setitem k v1 v2 d :
  od_setitem k v2 (od_setitem k v1 d) = od_setitem k v2 d.
Proof.
  induction d as [|[k' v'] d IH]; csimpl.
  - by rewrite decide_True.
  - destruct (decide (k' = k)); csimpl.
    + by rewrite decide_True.
    + rewrite decide_False by done. by rewrite IH.
Qed.

Lemma od_lookup_setitem k k' v d :
  od_lookup k (od_setitem k' v d) =
  if decide (k = k') then Some v else od_lookup k d.
Proof.
  induction d as [|[k0 v0] d IH]; csimpl.
  - destruct (decide (k' = k)), (decide (k = k')); congruence.
  - destruct (decide (k0 = k')) as [->|]; csimpl.
    + destruct (decide (k' = k)), (decide (k = k')); congruence.
    + rewrite IH.
      destruct (decide (k0 = k)), (decide (k = k')); congruence.
Qed.

Lemma od_setitem_id k v d : od_lookup k d = Some v → od_setitem k v d = d.
Proof.
  induction d as [|[k' v'] d IH]; csimpl; [done|].
  destruct (decide (k' = k)); intros H.
  - by injection H as ->.
  - by rewrite IH.
Qed.

Lemma od_keys_setitem k v d :
  od_keys (od_setitem k v d) =
  if decide (k ∈ od_keys d) then od_keys d else od_keys d ++ [k].
Proof.
  unfold od_keys. induction d as [|[k' v'] d IH]; csimpl.
  - done.
  - destruct (decide (k' = k)) as [->|Hne]; csimpl.
    + rewrite decide_True; [done | apply list_elem_of_here].
    + rewrite IH. destruct (decide (k ∈ d.*1)) as [Hin|Hin].
      * rewrite decide_True; [done | by apply list_elem_of_further].
      * rewrite decide_False; [done|].
        rewrite not_elem_of_cons. naive_solver.
Qed.

Lemma od_setitem_app_absent k v v' d :
  k ∉ od_keys d → od_setitem k v (d ++ [(k, v')]) = d ++ [(k, v)].
Proof.
  unfold od_keys. induction d as [|[k0 v0] d IH]; csimpl.
  - intros _. by rewrite decide_True.
  - rewrite not_elem_of_cons. intros [Hne Hk].
    rewrite decide_False by done. by rewrite IH.
Qed.

(** A read of a present key leaves a [defaultdict] as it is. *)
Lemma defaultdict_getitem_present dflt k v d :
  od_lookup k d = Some v → defaultdict_getitem dflt k d = (v, d).
Proof. unfold defaultdict_getitem. by intros ->. Qed.

(** Reading [d[k]] and mutating what is found amounts to one store. *)
Lemma defaultdict_modify_eq dflt k f d :
  defaultdict_modify dflt k f d =
  od_setitem k (f (default dflt (od_lookup k d))) d.
Proof.
  unfold defaultdict_modify, defaultdict_getitem.
  destruct (od_lookup k d) as [v|] eqn:E; csimpl; [done|].
  apply od_lookup_None in E.
  by rewrite od_setitem_app_absent, od_setitem_absent.
Qed.
End odict_facts.

(** ** Dictionaries filled by a loop

    The table [od_group] describes: which keys it has, in which order, and
    what is stored at each. *)

Lemma filter_all {A} (P : A → Prop) `{∀ x, Decision (P x)} (l : list A) :
  (∀ x, x ∈ l → P x) → filter P l = l.
Proof.
  induction l as [|x l IH]; intros HP; [done|].
  rewrite filter_cons_True by (apply HP, list_elem_of_here).
  f_equal. apply IH. intros y Hy. by apply HP, list_elem_of_further.
Qed.

Lemma filter_none {A} (P : A → Prop) `{∀ x, Decision (P x)} (l : list A) :
  (∀ x, x ∈ l → ¬ P x) → filter P l = [].
Proof.
  induction l as [|x l IH]; intros HP; [done|].
  rewrite filter_cons_False by (apply HP, list_elem_of_here).
  apply IH. intros y Hy. by apply HP, list_elem_of_further.
Qed.

Lemma fold_left_fmap {A B C} (h : A → B) (g : C → B → C) (l : list A) c :
  fold_left g (h <$> l) c = fold_left (λ c x, g c (h x)) l c.
Proof. revert c. induction l as [|x l IH]; intros c; csimpl; auto. Qed.

Section grouped_facts.
Context {A V : Type}.
Variable key : A → string.
Variable dflt : V.
Variable f : A → V → V.

Local Abbreviation od_apply := (od_apply key dflt f).
Local Abbreviation od_group := (od_group key dflt f).

Lemma filter_key_absent k (xs : list A) :
  k ∉ key <$> xs → filter (λ a, key a = k) xs = [].
Proof.
  induction xs as [|a xs IH]; csimpl; [done|].
  rewrite not_elem_of_cons. intros [Hne Hk].
  rewrite filter_cons_False by done. auto.
Qed.

Lemma od_lookup_apply k d a :
  od_lookup k (od_apply d a) =
  if decide (k = key a)
  then Some (f a (default dflt (od_lookup (key a) d)))
  else od_lookup k d.
Proof. unfold od_apply. by rewrite od_lookup_setitem. Qed.

Lemma od_apply_lookup k xs d :
  od_lookup k (fold_left od_apply xs d) =
  if decide (k ∈ key <$> xs)
  then Some (fold_left (λ v a, f a v) (filter (λ a, key a = k) xs)
               (default dflt (od_lookup k d)))
  else od_lookup k d.
Proof.
  revert d. induction xs as [|a xs IH]; intros d; csimpl; [done|].
  rewrite IH, od_lookup_apply.
  destruct (decide (k = key a)) as [->|Hne].
  - rewrite filter_cons_True by done.
    rewrite (decide_True (P := key a ∈ key a :: (key <$> xs)))
      by apply list_elem_of_here.
    destruct (decide (key a ∈ key <$> xs)) as [Hin|Hin]; [done|].
    by rewrite (filter_key_absent _ _ Hin).
  - rewrite filter_cons_False by done.
    destruct (decide (k ∈ key <$> xs)) as [Hin|Hin].
    + rewrite decide_True; [done | by apply list_elem_of_further].
    + rewrite decide_False; [done|].
      rewrite not_elem_of_cons. tauto.
Qed.

Lemma od_keys_apply d a :
  od_keys (od_apply d a) =
  if decide (key a ∈ od_keys d) then od_keys d else od_keys d ++ [key a].
Proof. unfold od_apply. by rewrite od_keys_setitem. Qed.

Lemma od_apply_keys xs d :
  od_keys (fold_left od_apply xs d) =
  od_keys d ++ filter (λ k, k ∉ od_keys d) (first_seen (key <$> xs)).
Proof.
  revert d. induction xs as [|a xs IH]; intros d; csimpl.
  - by rewrite app_nil_r.
  - rewrite IH. pose proof (od_keys_apply d a) as HK.
    destruct (decide (key a ∈ od_keys d)) as [Hin|Hin]; rewrite HK.
    + rewrite filter_cons_False by tauto. f_equal.
      rewrite list_filter_filter. apply list_filter_iff.
      intros k. split; [|tauto]. intros Hk. split; [done|].
      by intros ->.
    + rewrite filter_cons_True by done.
      rewrite <- app_assoc. csimpl. do 2 f_equal.
      rewrite list_filter_filter. apply list_filter_iff.
      intros k. rewrite not_elem_of_app, not_elem_of_cons.
      split; [intros [? [? ?]]; auto | intros [? ?]; auto].
      split; [done|]. split; [done | apply not_elem_of_nil].
Qed.

Lemma od_group_lookup k xs :
  od_lookup k (od_group xs) =
  if decide (k ∈ key <$> xs)
  then Some (fold_left (λ v a, f a v) (filter (λ a, key a = k) xs) dflt)
  else None.
Proof. unfold od_group. by rewrite od_apply_lookup. Qed.

Lemma od_group_keys xs : od_keys (od_group xs) = first_seen (key <$> xs).
Proof.
  unfold od_group. rewrite od_apply_keys. csimpl.
  apply filter_all. intros k _. apply not_elem_of_nil.
Qed.
End grouped_facts.

(** ** Counters built by counting *)

Lemma counter_sum_incr k (c : Counter) :
  counter_sum (counter_incr k c) = counter_sum c + 1.
Proof.
  unfold counter_incr, counter_get, counter_sum.
  induction c as [|[k' n] c IH]; csimpl; [done|].
  destruct (decide (k' = k)); csimpl; [lia|].
  rewrite IH. lia.
Qed.

Section tally_facts.
Context {A : Type}.
Variable key : A → string.

Lemma fold_incr_length (xs : list A) n :
  fold_left (λ v _, v + 1) xs n = n + length xs.
Proof.
  revert n. induction xs as [|a xs IH]; intros n; csimpl; [lia|].
  rewrite IH. lia.
Qed.

(** A key of the counter holds the number of items counted under it. *)
Lemma tally_lookup k xs :
  od_lookup k (tally key xs) =
  if decide (k ∈ key <$> xs)
  then Some (length (filter (λ a, key a = k) xs)) else None.
Proof.
  unfold tally. rewrite od_group_lookup.
  destruct (decide (k ∈ key <$> xs)); [|done].
  by rewrite fold_incr_length.
Qed.

Lemma tally_get k xs :
  counter_get k (tally key xs) = length (filter (λ a, key a = k) xs).
Proof.
  unfold counter_get. rewrite tally_lookup.
  destruct (decide (k ∈ key <$> xs)) as [|Hk]; [done|].
  by rewrite (filter_key_absent _ _ _ Hk).
Qed.

(** The keys of the counter are the keys counted, in the order in which
    each was first met. *)
Lemma tally_keys xs : od_keys (tally key xs) = first_seen (key <$> xs).
Proof. apply od_group_keys. Qed.

Lemma tally_sum_from xs (c : Counter) :
  counter_sum (fold_left (od_apply key 0 (λ _ n, n + 1)) xs c) =
  counter_sum c + length xs.
Proof.
  revert c. induction xs as [|a xs IH]; intros c; csimpl; [lia|].
  rewrite IH. change (od_apply _ _ _ c a) with (counter_incr (key a) c).
  rewrite counter_sum_incr. lia.
Qed.

Lemma tally_sum xs : counter_sum (tally key xs) = length xs.
Proof. unfold tally, od_group. by rewrite tally_sum_from. Qed.
End tally_facts.

(** ** The aggregator *)

Lemma add_victim_fold (recs : list victim) (e : month_data) :
  fold_left (λ e v, add_victim v e) recs e =
  {| total := total e + length recs;
     sectors :=
       fold_left (od_apply sector_of 0 (λ _ n, n + 1)) recs (sectors e);
     countries :=
       fold_left (od_apply country_of 0 (λ _ n, n + 1)) recs (countries e);
     country_sectors :=
       fold_left (od_apply country_of [] (λ v, counter_incr (sector_of v)))
         recs (country_sectors e) |}.
Proof.
  revert e. induction recs as [|v recs IH]; intros e; csimpl.
  - destruct e; csimpl. f_equal. lia.
  - rewrite IH. unfold add_victim at 1 2 3 4. csimpl.
    rewrite defaultdict_modify_eq. f_equal. lia.
Qed.

Lemma month_table_fold (recs : list victim) :
  fold_left (λ e v, add_victim v e) recs new_month = month_table recs.
Proof. by rewrite add_victim_fold. Qed.

Section aggregator_facts.
Context {datetime : Type}.
Variable fromisoformat : string → option datetime.
Variable strftime : datetime → string.

Local Abbreviation process_victim := (process_victim fromisoformat strftime).
Local Abbreviation process_victims :=
  (process_victims fromisoformat strftime).
Local Abbreviation month_of := (month_of fromisoformat strftime).
Local Abbreviation month_victims := (month_victims fromisoformat strftime).
Local Abbreviation dated := (dated fromisoformat strftime).

(** One iteration of the loop either skips the record or stores the
    updated entry of its month. *)
Lemma process_victim_eq md v :
  process_victim md v =
  match month_of v with
  | None => md
  | Some m => od_setitem m (add_victim v (default new_month (od_lookup m md))) md
  end.
Proof.
  unfold process_victim, month_of.
  destruct (truthy (dict_get v "discovered")); csimpl; [|done].
  destruct (try_month_key _ _ _) as [m|]; [|done].
  rewrite !defaultdict_modify_eq, !od_setitem_setitem.
  rewrite !od_lookup_setitem, !decide_True by done. done.
Qed.

Lemma process_victims_from vs md :
  fold_left process_victim vs md =
  fold_left (od_apply fst new_month (λ mv, add_victim mv.2)) (dated vs) md.
Proof.
  revert md. induction vs as [|v vs IH]; intros md; csimpl; [done|].
  rewrite IH, process_victim_eq. unfold dated. csimpl.
  by destruct (month_of v).
Qed.

Lemma dated_months m vs :
  filter (λ mv : string * victim, mv.1 = m) (dated vs) =
  (λ v, (m, v)) <$> month_victims m vs.
Proof.
  unfold dated, month_victims.
  induction vs as [|v vs IH]; csimpl; [done|].
  destruct (month_of v) as [m'|] eqn:E; csimpl.
  - destruct (decide (m' = m)) as [->|Hne].
    + rewrite !filter_cons_True by done. csimpl. by rewrite IH.
    + rewrite !filter_cons_False by (csimpl; congruence). done.
  - rewrite filter_cons_False by (csimpl; congruence). done.
Qed.

Lemma dated_elem_of m vs :
  m ∈ (dated vs).*1 ↔ month_victims m vs ≠ [].
Proof.
  unfold dated, month_victims.
  induction vs as [|v vs IH]; csimpl.
  - split; [by intros ?%elem_of_nil | done].
  - destruct (month_of v) as [m'|] eqn:E; csimpl.
    + destruct (decide (m' = m)) as [->|Hne].
      * rewrite filter_cons_True by done.
        split; [done | intros _; apply list_elem_of_here].
      * rewrite filter_cons_False by (csimpl; congruence).
        rewrite elem_of_cons, <- IH. split; [|auto].
        intros [?|?]; [congruence | done].
    + rewrite filter_cons_False by (csimpl; congruence). done.
Qed.

(** The entry of every month: present exactly when the month has a
    record, and then the table of that month's records. *)
Lemma process_victims_lookup m vs :
  od_lookup m (process_victims vs) =
  match month_victims m vs with
  | [] => None
  | recs => Some (month_table recs)
  end.
Proof.
  unfold process_victims.
  rewrite process_victims_from, od_apply_lookup.
  destruct (decide (m ∈ (dated vs).*1)) as [Hin|Hin].
  - rewrite dated_months. csimpl.
    apply dated_elem_of in Hin.
    rewrite fold_left_fmap. csimpl. rewrite month_table_fold.
    by destruct (month_victims m vs).
  - rewrite dated_elem_of in Hin.
    destruct (month_victims m vs); [done|]. by destruct Hin.
Qed.

(** The months appear in the order in which each was first met. *)
Lemma process_victims_keys vs :
  od_keys (process_victims vs) = first_seen (dated vs).*1.
Proof.
  unfold process_victims.
  rewrite process_victims_from. apply od_group_keys.
Qed.
End aggregator_facts.

(** The nested table of a month: a country has an entry exactly when one of
    the month's records counts for it, and the entry tallies the sectors of
    those records. *)
Lemma month_table_country_sectors c (recs : list victim) :
  od_lookup c (country_sectors (month_table recs)) =
  if decide (c ∈ country_of <$> recs)
  then Some (tally sector_of (filter (λ v, country_of v = c) recs))
  else None.
Proof. unfold month_table. csimpl. by rewrite od_group_lookup. Qed.

Lemma month_table_consistent (recs : list victim) :
  counter_sum (sectors (month_table recs)) = total (month_table recs) ∧
  counter_sum (countries (month_table recs)) = total (month_table recs) ∧
  od_keys (country_sectors (month_table recs)) =
    od_keys (countries (month_table recs)) ∧
  ∀ c n, od_lookup c (countries (month_table recs)) = Some n →
    ∃ t, od_lookup c (country_sectors (month_table recs)) = Some t ∧
         counter_sum t = n.
Proof.
  split_and!.
  - apply tally_sum.
  - apply tally_sum.
  - unfold month_table. csimpl. by rewrite od_group_keys, tally_keys.
  - intros c n. rewrite month_table_country_sectors.
    unfold month_table. csimpl. rewrite tally_lookup.
    destruct (decide (c ∈ country_of <$> recs)); [|done].
    intros [= <-]. eexists. split; [done|]. apply tally_sum.
Qed.

Section invariants.
Context {datetime : Type}.
Variable fromisoformat : string → option datetime.
Variable strftime : datetime → string.

Local Abbreviation process_victims :=
  (process_victims fromisoformat strftime).
Local Abbreviation month_victims := (month_victims fromisoformat strftime).

Lemma process_victims_entry m vs e :
  od_lookup m (process_victims vs) = Some e →
  month_victims m vs ≠ [] ∧ e = month_table (month_victims m vs).
Proof.
  rewrite process_victims_lookup.
  destruct (month_victims m vs) eqn:E; [done|]. by intros [= <-].
Qed.

(** Claim C1.  In the aggregation [process_victims] returns, the total of
    every month is the sum of the values of its sector table and the sum
    of the values of its country table; the nested table has the same
    countries as the country table, and for each of them the values of
    its sector table sum to the country's count. *)
Theorem process_victims_totals vs m e :
  od_lookup m (process_victims vs) = Some e →
  counter_sum (sectors e) = total e ∧
  counter_sum (countries e) = total e ∧
  od_keys (country_sectors e) = od_keys (countries e) ∧
  ∀ c n, od_lookup c (countries e) = Some n →
    ∃ t, od_lookup c (country_sectors e) = Some t ∧ counter_sum t = n.
Proof.
  intros [_ ->]%process_victims_entry. apply month_table_consistent.
Qed.
End invariants.

Section records.
Context {datetime : Type}.
Variable fromisoformat : string → option datetime.
Variable strftime : datetime → string.

Local Abbreviation process_victim := (process_victim fromisoformat strftime).
Local Abbreviation process_victims :=
  (process_victims fromisoformat strftime).
Local Abbreviation month_of := (month_of fromisoformat strftime).
Local Abbreviation month_victims := (month_victims fromisoformat strftime).
Local Abbreviation undated := (undated fromisoformat).

Lemma undated_month_of v : undated v → month_of v = None.
Proof.
  unfold month_of, dict_get.
  intros [Hm|[Hf|(s & Hs & Hp)]].
  - by rewrite Hm.
  - unfold dict_get in Hf. by rewrite Hf.
  - rewrite Hs. csimpl. rewrite Hp. by destruct (negb _).
Qed.

(** Claim C2.  A record whose [discovered] field is missing, falsy or
    unparsable leaves the aggregation as it finds it, so the aggregation
    of a sequence is the aggregation of the sequence without that
    record: the record is in no total and in no count of any month. *)
Theorem process_victims_skips_undated v :
  undated v →
  (∀ md, process_victim md v = md) ∧
  ∀ vs1 vs2,
    process_victims (vs1 ++ v :: vs2) = process_victims (vs1 ++ vs2).
Proof.
  intros Hv%undated_month_of.
  assert (∀ md, process_victim md v = md) as Hstep.
  { intros md. by rewrite process_victim_eq, Hv. }
  split; [done|]. intros vs1 vs2. unfold process_victims.
  rewrite !fold_left_app. csimpl. by rewrite Hstep.
Qed.

Lemma absent_sector v : absent "activity" v → sector_of v = "Not Identified".
Proof.
  unfold absent, sector_of, dict_get. intros [->|H]; [done|].
  destruct (v !! "activity") as [[|s]|]; csimpl in *; [done| |done].
  by rewrite H.
Qed.

Lemma absent_country v : absent "country" v → country_of v = "Not Identified".
Proof.
  unfold absent, country_of, dict_get. intros [->|H]; [done|].
  destruct (v !! "country") as [[|s]|]; csimpl in *; [done| |done].
  by rewrite H.
Qed.

Lemma month_victims_elem_of v m vs :
  v ∈ vs → month_of v = Some m → v ∈ month_victims m vs.
Proof. intros. by apply list_elem_of_filter. Qed.

Lemma tally_nested_get c s (recs : list victim) :
  counter_get s (default [] (od_lookup c (country_sectors (month_table recs))))
  = length (filter (λ v, country_of v = c ∧ sector_of v = s) recs).
Proof.
  rewrite month_table_country_sectors.
  destruct (decide (c ∈ country_of <$> recs)) as [Hc|Hc]; csimpl.
  - rewrite tally_get, list_filter_filter. f_equal.
    apply list_filter_iff. tauto.
  - rewrite filter_none; [done|].
    intros v Hv [<- _]. apply Hc. by apply list_elem_of_fmap_2.
Qed.

(** Claim C3.  A record aggregated into month [m] is counted, in the three
    tables of [m], under its sector and its country, and these are the
    literal "Not Identified" when [activity], respectively [country], is
    missing or falsy. *)
Theorem not_identified_default vs v m :
  v ∈ vs → month_of v = Some m →
  ∃ e, od_lookup m (process_victims vs) = Some e ∧
    v ∈ month_victims m vs ∧
    (∀ s, counter_get s (sectors e) =
          length (filter (λ r, sector_of r = s) (month_victims m vs))) ∧
    (∀ c, counter_get c (countries e) =
          length (filter (λ r, country_of r = c) (month_victims m vs))) ∧
    (∀ c s, counter_get s (default [] (od_lookup c (country_sectors e))) =
            length (filter (λ r, country_of r = c ∧ sector_of r = s)
                      (month_victims m vs))) ∧
    (absent "activity" v → sector_of v = "Not Identified") ∧
    (absent "country" v → country_of v = "Not Identified").
Proof.
  intros Hv Hm. pose proof (month_victims_elem_of _ _ _ Hv Hm) as Hin.
  exists (month_table (month_victims m vs)). split_and!.
  - rewrite process_victims_lookup.
    destruct (month_victims m vs); [by apply elem_of_nil in Hin | done].
  - done.
  - intros s. apply tally_get.
  - intros c. apply tally_get.
  - intros c s. apply tally_nested_get.
  - apply absent_sector.
  - apply absent_country.
Qed.
End records.

(** ** Reordering the input *)

Lemma lookup_list_to_map_od {V} k (d : odict V) :
  (list_to_map d : gmap string V) !! k = od_lookup k d.
Proof.
  induction d as [|[k' v] d IH]; csimpl; [apply lookup_empty|].
  destruct (decide (k' = k)) as [->|Hne].
  - apply lookup_insert_eq.
  - by rewrite lookup_insert_ne.
Qed.

Lemma tally_counts_perm {A} (key : A → string) (xs ys : list A) :
  xs ≡ₚ ys → counts (tally key xs) = counts (tally key ys).
Proof.
  intros Hp. apply map_eq. intros k. unfold counts.
  rewrite !lookup_list_to_map_od, !tally_lookup.
  assert (k ∈ key <$> xs ↔ k ∈ key <$> ys) as Hk by by rewrite Hp.
  destruct (decide (k ∈ key <$> xs)) as [Hx|Hx].
  - rewrite decide_True by tauto. by rewrite Hp.
  - rewrite decide_False by tauto. done.
Qed.

Lemma month_table_counts_perm (xs ys : list victim) :
  xs ≡ₚ ys → entry_counts (month_table xs) = entry_counts (month_table ys).
Proof.
  intros Hp. unfold entry_counts. f_equal.
  - csimpl. by rewrite Hp.
  - by apply tally_counts_perm.
  - by apply tally_counts_perm.
  - apply map_eq. intros c.
    rewrite !lookup_fmap, !lookup_list_to_map_od.
    rewrite !month_table_country_sectors.
    assert (c ∈ country_of <$> xs ↔ c ∈ country_of <$> ys) as Hk
      by by rewrite Hp.
    destruct (decide (c ∈ country_of <$> xs)) as [Hx|Hx].
    + rewrite decide_True by tauto. csimpl. f_equal.
      apply tally_counts_perm. by rewrite Hp.
    + rewrite decide_False by tauto. done.
Qed.

Section reordering.
Context {datetime : Type}.
Variable fromisoformat : string → option datetime.
Variable strftime : datetime → string.

Local Abbreviation process_victims :=
  (process_victims fromisoformat strftime).
Local Abbreviation month_victims := (month_victims fromisoformat strftime).

(** Claim C4.  Aggregating a permutation of the input gives the same
    months and, for every month, the same total and the same counts in
    the three tables; only the order of the keys inside the dictionaries,
    which decides ties in the ranking, can differ. *)
Theorem process_victims_permutation vs vs' :
  vs ≡ₚ vs' →
  aggregation_counts (process_victims vs) =
  aggregation_counts (process_victims vs').
Proof.
  intros Hp. apply map_eq. intros m. unfold aggregation_counts.
  rewrite !lookup_fmap, !lookup_list_to_map_od, !process_victims_lookup.
  assert (month_victims m vs ≡ₚ month_victims m vs') as Hm.
  { unfold month_victims. by rewrite Hp. }
  destruct (month_victims m vs) as [|x xs] eqn:E.
  - apply Permutation_nil_l in Hm. by rewrite <- Hm.
  - destruct (month_victims m vs') as [|y ys] eqn:E'.
    + by apply Permutation_nil_r in Hm.
    + csimpl. f_equal. by apply month_table_counts_perm.
Qed.
End reordering.

(** ** Sorting *)

Lemma insert_key_perm k l : insert_key k l ≡ₚ k :: l.
Proof.
  induction l as [|k' l IH]; csimpl; [done|].
  destruct (String.leb k k'); [done|].
  rewrite IH. apply perm_swap.
Qed.

Lemma sorted_perm l : sorted l ≡ₚ l.
Proof.
  induction l as [|k l IH]; csimpl; [done|].
  by rewrite insert_key_perm, IH.
Qed.

Lemma insert_key_sorted k l : Sorted key_le l → Sorted key_le (insert_key k l).
Proof.
  induction 1 as [|k' l Hl IH Hhd]; csimpl.
  - by repeat constructor.
  - destruct (String.leb k k') eqn:E.
    + by repeat constructor.
    + constructor; [done|].
      assert (key_le k' k) as Hk.
      { destruct (String.leb_total k k') as [?|?]; [congruence | done]. }
      destruct Hhd as [|k'' l' Hle]; csimpl; [by constructor|].
      destruct (String.leb k k''); by constructor.
Qed.

Lemma sorted_sorted l : Sorted key_le (sorted l).
Proof.
  induction l as [|k l IH]; csimpl; [constructor|].
  by apply insert_key_sorted.
Qed.

(** Sorting a sorted list of keys changes nothing. *)
Lemma sorted_id l : Sorted key_le l → sorted l = l.
Proof.
  induction 1 as [|k l Hl IH Hhd]; csimpl; [done|].
  rewrite IH. destruct Hhd as [|k' l' Hle]; csimpl; [done|].
  by rewrite Hle.
Qed.

Lemma insert_by_count_perm x l : insert_by_count x l ≡ₚ x :: l.
Proof.
  induction l as [|y l IH]; csimpl; [done|].
  destruct (decide (x.2 < y.2)); [|done].
  rewrite IH. apply perm_swap.
Qed.

Lemma sorted_by_count_perm l : sorted_by_count l ≡ₚ l.
Proof.
  induction l as [|x l IH]; csimpl; [done|].
  by rewrite insert_by_count_perm, IH.
Qed.

Lemma most_common_elem_of n (c : Counter) x : x ∈ most_common n c → x ∈ c.
Proof.
  unfold most_common. intros Hx.
  rewrite <- (sorted_by_count_perm c).
  by apply (subseteq_take n).
Qed.

Lemma most_common_key n (c : Counter) x :
  x ∈ most_common n c → x.1 ∈ od_keys c.
Proof.
  intros Hx%most_common_elem_of. by apply list_elem_of_fmap_2.
Qed.

(** ** The JSON builder *)

Lemma json_country_fold items cs acc :
  (∀ item, item ∈ items → item.1 ∈ od_keys cs) →
  fold_left json_country items (acc, cs) =
  (acc ++ (shape_country cs <$> items), cs).
Proof.
  revert acc. induction items as [|[c n] items IH]; intros acc Hin; csimpl.
  - by rewrite app_nil_r.
  - assert (c ∈ od_keys cs) as Hc by apply (Hin (c, n)), list_elem_of_here.
    apply od_lookup_is_Some in Hc as [t Ht].
    rewrite (defaultdict_getitem_present _ _ _ _ Ht).
    rewrite IH by (intros; by apply Hin, list_elem_of_further).
    rewrite <- app_assoc. unfold shape_country at 2. csimpl.
    by rewrite Ht.
Qed.

Lemma set_country_sectors_id e : set_country_sectors (country_sectors e) e = e.
Proof. by destruct e. Qed.

(** On a month whose entry is closed, one iteration stores the shaped
    month and leaves [monthly_data] as it is. *)
Lemma json_month_closed out md m e :
  od_lookup m md = Some e → closed e →
  json_month (out, md) m = (od_setitem m (shape_month e) out, md).
Proof.
  intros He Hcl. unfold json_month.
  rewrite (defaultdict_getitem_present _ _ _ _ He).
  rewrite json_country_fold.
  - rewrite set_country_sectors_id, (od_setitem_id _ _ _ He). done.
  - intros item Hitem. by apply Hcl, (most_common_key 10).
Qed.

Lemma json_months_closed ms out md :
  all_closed md → (∀ m, m ∈ ms → m ∈ od_keys md) →
  fold_left json_month ms (out, md) =
  (fold_left (λ out m,
      od_setitem m (shape_month (default new_month (od_lookup m md))) out)
     ms out, md).
Proof.
  intros Hcl. revert out. induction ms as [|m ms IH]; intros out Hin; [done|].
  cbn [fold_left].
  assert (m ∈ od_keys md) as Hm by apply Hin, list_elem_of_here.
  apply od_lookup_is_Some in Hm as [e He].
  rewrite (json_month_closed _ _ _ _ He (Hcl _ _ He)), He. csimpl.
  apply IH. intros. by apply Hin, list_elem_of_further.
Qed.

Lemma setitem_fresh_fold {V} (g : string → V) ms (out : odict V) :
  NoDup ms → (∀ m, m ∈ ms → m ∉ od_keys out) →
  fold_left (λ out m, od_setitem m (g m) out) ms out =
  out ++ ((λ m, (m, g m)) <$> ms).
Proof.
  revert out. induction ms as [|m ms IH]; intros out Hnd Hfresh; csimpl.
  - by rewrite app_nil_r.
  - apply NoDup_cons in Hnd as [Hm Hnd].
    rewrite od_setitem_absent by apply Hfresh, list_elem_of_here.
    rewrite IH, <- app_assoc; [done | done |].
    intros m' Hm'. unfold od_keys. rewrite fmap_app, not_elem_of_app.
    split; [by apply Hfresh, list_elem_of_further|].
    csimpl. rewrite not_elem_of_cons. split; [|apply not_elem_of_nil].
    by intros ->.
Qed.

(** On an aggregation whose dictionaries have distinct keys and whose
    entries are closed, [build_json_output] returns the shaped result and
    leaves the aggregation as it is. *)
Lemma build_json_output_closed md :
  NoDup (od_keys md) → all_closed md →
  build_json_output md = (shape md, md).
Proof.
  intros Hnd Hcl. unfold build_json_output.
  rewrite json_months_closed; [|done|].
  - f_equal. rewrite setitem_fresh_fold; [done| |].
    + by rewrite sorted_perm.
    + intros m _. apply not_elem_of_nil.
  - intros m. by rewrite sorted_perm.
Qed.

(** ** The text presenter *)

Lemma text_sector_entries bullet (l : list (string * nat)) :
  text_sector bullet <$> sector_entries l =
  (λ item, print (bullet +:+ item.1 +:+ ": " +:+ str item.2)) <$> l.
Proof.
  unfold sector_entries. rewrite <- list_fmap_compose.
  apply list_fmap_ext. by intros _ [s k] _.
Qed.

Lemma text_country_closed out cs item :
  item.1 ∈ od_keys cs →
  text_country (out, cs) item =
  (out ++ text_country_lines (shape_country cs item), cs).
Proof.
  destruct item as [c n]. csimpl.
  intros [t Ht]%od_lookup_is_Some.
  unfold text_country, text_country_lines, shape_country.
  cbn [country country_count country_top_sectors fst snd].
  rewrite (defaultdict_getitem_present _ _ _ _ Ht), Ht.
  cbn [default id].
  destruct (most_common 3 t) as [|x l] eqn:E; [done|].
  destruct (sector_entries (x :: l)) as [|e es] eqn:Es; [done|].
  rewrite <- Es, text_sector_entries, <- app_assoc. done.
Qed.

Lemma text_country_fold items cs out :
  (∀ item, item ∈ items → item.1 ∈ od_keys cs) →
  fold_left text_country items (out, cs) =
  (out ++ concat (text_country_lines ∘ shape_country cs <$> items), cs).
Proof.
  revert out. induction items as [|item items IH]; intros out Hin.
  - csimpl. by rewrite app_nil_r.
  - cbn [fold_left].
    rewrite text_country_closed by apply Hin, list_elem_of_here.
    rewrite IH by (intros; by apply Hin, list_elem_of_further).
    csimpl. by rewrite <- app_assoc.
Qed.

Lemma text_month_closed out md m e :
  od_lookup m md = Some e → closed e →
  text_month (out, md) m = (out ++ text_month_lines (m, shape_month e), md).
Proof.
  intros He Hcl. unfold text_month.
  rewrite (defaultdict_getitem_present _ _ _ _ He).
  rewrite text_country_fold.
  - rewrite set_country_sectors_id, (od_setitem_id _ _ _ He).
    f_equal. unfold text_month_lines, shape_month. csimpl.
    rewrite <- !app_assoc. csimpl. do 4 f_equal.
    rewrite <- !app_assoc. f_equal.
    + unfold sector_entries. rewrite <- list_fmap_compose.
      apply list_fmap_ext. by intros _ [s' k'] _.
    + csimpl. do 2 f_equal. by rewrite <- list_fmap_compose.
  - intros item Hitem. by apply Hcl, (most_common_key 10).
Qed.

Lemma text_months_closed ms out md :
  all_closed md → (∀ m, m ∈ ms → m ∈ od_keys md) →
  fold_left text_month ms (out, md) =
  (out ++ concat (text_month_lines <$>
             ((λ m, (m, shape_month (default new_month (od_lookup m md))))
                <$> ms)),
   md).
Proof.
  intros Hcl. revert out. induction ms as [|m ms IH]; intros out Hin.
  - csimpl. by rewrite app_nil_r.
  - cbn [fold_left].
    assert (m ∈ od_keys md) as Hm by apply Hin, list_elem_of_here.
    apply od_lookup_is_Some in Hm as [e He].
    rewrite (text_month_closed _ _ _ _ He (Hcl _ _ He)).
    rewrite IH by (intros; by apply Hin, list_elem_of_further).
    csimpl. by rewrite He, <- app_assoc.
Qed.

(** The text presenter prints the report of the same shaped result, and
    leaves the aggregation as it is. *)
Lemma shape_nil md : shape md = [] → md = [].
Proof.
  intros Es. apply (f_equal length) in Es. unfold shape, od_keys in Es.
  rewrite length_fmap, sorted_perm, length_fmap in Es.
  by destruct md.
Qed.

Lemma print_monthly_summary_closed md :
  all_closed md →
  print_monthly_summary md = (text_of_shaped (shape md), md).
Proof.
  intros Hcl.
  pose proof (text_months_closed (sorted (od_keys md)) [] md Hcl) as Hfold.
  rewrite app_nil_l in Hfold. fold (shape md) in Hfold.
  unfold print_monthly_summary, text_of_shaped.
  destruct (shape md) as [|x out] eqn:Es.
  - apply shape_nil in Es. by subst md.
  - destruct md as [|kv md']; [done|].
    apply Hfold. intros m. by rewrite sorted_perm.
Qed.

(** ** Well-formed aggregations *)

Lemma first_seen_elem_of k ks : k ∈ first_seen ks ↔ k ∈ ks.
Proof.
  induction ks as [|k' ks IH]; csimpl; [done|].
  rewrite !elem_of_cons, list_elem_of_filter, IH.
  destruct (decide (k = k')); tauto.
Qed.

Lemma first_seen_NoDup ks : NoDup (first_seen ks).
Proof.
  induction ks as [|k ks IH]; csimpl; [constructor|].
  apply NoDup_cons. split.
  - rewrite list_elem_of_filter. tauto.
  - by apply NoDup_filter.
Qed.

Lemma month_table_closed (recs : list victim) : closed (month_table recs).
Proof.
  intros c. by destruct (month_table_consistent recs) as (_ & _ & -> & _).
Qed.

Lemma od_keys_shape md : od_keys (shape md) = sorted (od_keys md).
Proof.
  unfold shape, od_keys. rewrite <- list_fmap_compose.
  rewrite <- (list_fmap_id (sorted _)) at 2. by apply list_fmap_ext.
Qed.

Section well_formed.
Context {datetime : Type}.
Variable fromisoformat : string → option datetime.
Variable strftime : datetime → string.

Local Abbreviation process_victims :=
  (process_victims fromisoformat strftime).

Lemma process_victims_NoDup vs : NoDup (od_keys (process_victims vs)).
Proof. rewrite process_victims_keys. apply first_seen_NoDup. Qed.

Lemma process_victims_closed vs : all_closed (process_victims vs).
Proof.
  intros m e [_ ->]%process_victims_entry. apply month_table_closed.
Qed.

Lemma build_json_output_aggregation vs :
  build_json_output (process_victims vs) =
  (shape (process_victims vs), process_victims vs).
Proof.
  apply build_json_output_closed;
    [apply process_victims_NoDup | apply process_victims_closed].
Qed.

Lemma render_frame env args vs :
  (render env args (process_victims vs)).2 = process_victims vs.
Proof.
  unfold render. rewrite build_json_output_aggregation.
  destruct (format args); [|done..].
  by rewrite print_monthly_summary_closed by apply process_victims_closed.
Qed.

(** Claim C9.  Rendering the aggregation [process_victims] returned
    leaves it unchanged, whichever presenter is used: the lookups
    [data["country_sectors"][country]] made while ranking find every
    country they ask for, so no default entry is ever inserted. *)
Theorem presenters_preserve_aggregation vs :
  (print_monthly_summary (process_victims vs)).2 = process_victims vs ∧
  (build_json_output (process_victims vs)).2 = process_victims vs ∧
  ∀ env args, (render env args (process_victims vs)).2 = process_victims vs.
Proof.
  split_and!.
  - by rewrite print_monthly_summary_closed
      by apply process_victims_closed.
  - by rewrite build_json_output_aggregation.
  - intros env args. apply render_frame.
Qed.
End well_formed.

(** ** The CSV presenter *)

Lemma omap_ext_elem_of {A B} (f g : A → option B) (l : list A) :
  (∀ x, x ∈ l → f x = g x) → omap f l = omap g l.
Proof.
  induction l as [|x l IH]; intros Hfg; csimpl; [done|].
  rewrite (Hfg x) by apply list_elem_of_here.
  rewrite IH; [done|]. intros y Hy. by apply Hfg, list_elem_of_further.
Qed.

Lemma od_rows {V B} (g : string → V → B) (out : odict V) :
  NoDup (od_keys out) →
  omap (λ m, g m <$> od_lookup m out) (od_keys out) =
  (λ kv, g kv.1 kv.2) <$> out.
Proof.
  unfold od_keys. induction out as [|[k v] out IH]; csimpl; [done|].
  rewrite NoDup_cons. intros [Hk Hnd]. rewrite decide_True by done. csimpl.
  f_equal. rewrite <- IH by done.
  apply omap_ext_elem_of. intros m Hm. csimpl.
  rewrite decide_False; [done|]. intros ->. by apply Hk.
Qed.

(** On a dictionary whose keys are distinct and ascending, the CSV rows
    are the entries of the dictionary, one row each, in order. *)
Lemma csv_rows_sorted out :
  NoDup (od_keys out) → Sorted key_le (od_keys out) →
  csv_rows out = (λ kv, csv_row_of kv.1 kv.2) <$> out.
Proof.
  intros Hnd Hs. unfold csv_rows. rewrite (sorted_id _ Hs).
  by apply od_rows.
Qed.

Section parity.
Context {datetime : Type}.
Variable fromisoformat : string → option datetime.
Variable strftime : datetime → string.

Local Abbreviation process_victims :=
  (process_victims fromisoformat strftime).

Lemma csv_rows_shape vs :
  csv_rows (shape (process_victims vs)) =
  (λ kv, csv_row_of kv.1 kv.2) <$> shape (process_victims vs).
Proof.
  apply csv_rows_sorted; rewrite od_keys_shape.
  - rewrite sorted_perm. apply process_victims_NoDup.
  - apply sorted_sorted.
Qed.

End parity.

(** ** Reading the cells of the CSV report back *)


























(** A name that holds separators can make two lists share one cell. *)
Example sectors_cell_ambiguous :
  sectors_cell [SectorEntry "B: 2, A" 1] =
  sectors_cell [SectorEntry "B" 2; SectorEntry "A" 1].
Proof. reflexivity. Qed.


Section parity_of_reports.
Context {datetime : Type}.
Variable fromisoformat : string → option datetime.
Variable strftime : datetime → string.

Local Abbreviation process_victims :=
  (process_victims fromisoformat strftime).


End parity_of_reports.

(** ** Ranking *)

Lemma StronglySorted_impl_elem {A} (R R' : relation A) (l : list A) :
  (∀ x y, x ∈ l → y ∈ l → R x y → R' x y) →
  StronglySorted R l → StronglySorted R' l.
Proof.
  intros HR Hs. induction Hs as [|x l Hs IH Hall]; constructor.
  - apply IH. intros a b Ha Hb. apply HR; by apply list_elem_of_further.
  - apply Forall_forall. intros y Hy. apply HR.
    + apply list_elem_of_here.
    + by apply list_elem_of_further.
    + by apply (proj1 (Forall_forall _ _) Hall).
Qed.

Lemma StronglySorted_filter {A} (R : relation A) (P : A → Prop)
    `{∀ x, Decision (P x)} (l : list A) :
  StronglySorted R l → StronglySorted R (filter P l).
Proof.
  induction 1 as [|x l Hs IH Hall]; [constructor|].
  rewrite filter_cons. destruct (decide (P x)); [|done].
  constructor; [done|]. apply Forall_forall.
  intros y [_ Hy]%list_elem_of_filter.
  by apply (proj1 (Forall_forall _ _) Hall).
Qed.

Lemma StronglySorted_on_keys {V} (R : relation string) (d : odict V) :
  StronglySorted R (od_keys d) → StronglySorted (λ x y, R x.1 y.1) d.
Proof.
  unfold od_keys. induction d as [|kv d IH]; csimpl; [constructor|].
  intros [Hall Hs]%StronglySorted_cons. constructor; [auto|].
  apply Forall_forall. intros y Hy.
  apply (proj1 (Forall_forall _ _) Hall). by apply list_elem_of_fmap_2.
Qed.

(** Keys appear in [first_seen] in the order in which they are first met. *)
Lemma first_seen_sorted ks :
  StronglySorted (λ a b, first_index a ks < first_index b ks) (first_seen ks).
Proof.
  induction ks as [|k ks IH]; csimpl; [constructor|].
  constructor.
  - apply (StronglySorted_impl_elem
             (λ a b, first_index a ks < first_index b ks)).
    + intros a b [Ha _]%list_elem_of_filter [Hb _]%list_elem_of_filter Hab.
      rewrite !decide_False by done. lia.
    + by apply StronglySorted_filter.
  - apply Forall_forall. intros b [Hb _]%list_elem_of_filter.
    rewrite decide_True by done. rewrite decide_False by done. lia.
Qed.

Section stable_sort.
Variable before : relation (string * nat).

Local Abbreviation ranks_before := (ranks_before before).

Lemma insert_by_count_sorted x s :
  StronglySorted ranks_before s → Forall (before x) s →
  StronglySorted ranks_before (insert_by_count x s).
Proof.
  induction s as [|y s IH]; csimpl; intros Hs Hb.
  - by repeat constructor.
  - apply StronglySorted_cons in Hs as [Hy Hs].
    apply Forall_cons in Hb as [Hxy Hb].
    destruct (decide (x.2 < y.2)) as [Hlt|Hge].
    + constructor; [by apply IH|].
      rewrite insert_by_count_perm. constructor; [by left | done].
    + constructor; [by constructor|].
      constructor.
      * unfold ranks_before. destruct (decide (y.2 = x.2)); [right|left].
        -- done.
        -- lia.
      * apply Forall_forall. intros z Hz.
        pose proof (proj1 (Forall_forall _ _) Hy z Hz) as Hyz.
        pose proof (proj1 (Forall_forall _ _) Hb z Hz) as Hxz.
        unfold ranks_before in *.
        destruct (decide (z.2 = x.2)); [right; done | left; lia].
Qed.

(** The descending sort is stable: among entries of equal count, the
    order of the input is kept. *)
Lemma sorted_by_count_stable l :
  StronglySorted before l → StronglySorted ranks_before (sorted_by_count l).
Proof.
  induction 1 as [|x l Hs IH Hall]; csimpl; [constructor|].
  apply insert_by_count_sorted; [done|].
  by rewrite sorted_by_count_perm.
Qed.
End stable_sort.

Lemma occurrences_fmap {A} (key : A → string) k (xs : list A) :
  occurrences k (key <$> xs) = length (filter (λ a, key a = k) xs).
Proof.
  unfold occurrences. induction xs as [|a xs IH]; csimpl; [done|].
  rewrite !filter_cons. destruct (decide (key a = k)); csimpl; by rewrite IH.
Qed.

Section tally_ranking.
Context {A : Type}.
Variable key : A → string.
Variable xs : list A.

Lemma tally_NoDup : NoDup (od_keys (tally key xs)).
Proof. rewrite tally_keys. apply first_seen_NoDup. Qed.

Lemma tally_entry x :
  x ∈ tally key xs →
  x.1 ∈ key <$> xs ∧ x.2 = occurrences x.1 (key <$> xs).
Proof.
  destruct x as [k n]. intros Hx.
  apply (od_elem_of_lookup _ _ _ tally_NoDup) in Hx.
  rewrite tally_lookup in Hx. csimpl.
  destruct (decide (k ∈ key <$> xs)); [|done].
  injection Hx as <-. by rewrite occurrences_fmap.
Qed.

Lemma tally_sorted_by_count :
  StronglySorted (λ x y, outranks (key <$> xs) x.1 y.1)
    (sorted_by_count (tally key xs)).
Proof.
  set (ks := key <$> xs).
  apply (StronglySorted_impl_elem
           (ranks_before (λ x y, first_index x.1 ks < first_index y.1 ks))).
  - intros x y Hx Hy. rewrite sorted_by_count_perm in Hx, Hy.
    apply tally_entry in Hx as [_ Hx]. apply tally_entry in Hy as [_ Hy].
    unfold ranks_before, outranks. fold ks in Hx, Hy.
    rewrite <- Hx, <- Hy. tauto.
  - apply sorted_by_count_stable.
    apply (StronglySorted_on_keys
             (λ a b, first_index a ks < first_index b ks)).
    rewrite tally_keys. apply first_seen_sorted.
Qed.

(** [most_common n] of a counter built by counting is the documented
    ranking of the keys counted. *)
Lemma most_common_ranked n :
  ranked_top n (key <$> xs) (most_common n (tally key xs)).
Proof.
  unfold ranked_top, most_common.
  set (s := sorted_by_count (tally key xs)).
  assert (StronglySorted (λ x y, outranks (key <$> xs) x.1 y.1)
            (take n s ++ drop n s)) as Hs.
  { rewrite take_drop. apply tally_sorted_by_count. }
  split_and!.
  - rewrite length_take. f_equal. unfold s.
    rewrite sorted_by_count_perm, <- tally_keys. unfold od_keys.
    by rewrite length_fmap.
  - intros x Hx. apply tally_entry.
    rewrite <- (sorted_by_count_perm (tally key xs)).
    by apply (subseteq_take n).
  - by apply StronglySorted_app_1_l in Hs.
  - intros k Hk Hnot x Hx.
    apply first_seen_elem_of in Hk. rewrite <- tally_keys in Hk.
    apply list_elem_of_fmap in Hk as ([k' v] & -> & Hkv).
    rewrite <- (sorted_by_count_perm (tally key xs)) in Hkv.
    fold s in Hkv. rewrite <- (take_drop n s) in Hkv.
    apply elem_of_app in Hkv as [Hkv|Hkv].
    + destruct Hnot. by apply (list_elem_of_fmap_2 fst) in Hkv.
    + apply (StronglySorted_app_1_elem_of _ _ _ x (k', v) Hs Hx Hkv).
Qed.
End tally_ranking.

(** ** The documented ranking determines the list *)

Lemma outranks_asym ks a b : outranks ks a b → outranks ks b a → False.
Proof. unfold outranks. lia. Qed.

Lemma ranked_keys_NoDup ks (top : list (string * nat)) :
  StronglySorted (λ x y, outranks ks x.1 y.1) top → NoDup top.*1.
Proof.
  induction 1 as [|x top Hs IH Hall]; csimpl; constructor; [|done].
  intros (y & Hxy & Hy)%list_elem_of_fmap.
  pose proof (proj1 (Forall_forall _ _) Hall y Hy) as Hout.
  csimpl in Hout. rewrite <- Hxy in Hout. by apply outranks_asym in Hout.
Qed.

Lemma ranked_top_keys n ks t1 t2 k :
  ranked_top n ks t1 → ranked_top n ks t2 → k ∈ t1.*1 → k ∈ t2.*1.
Proof.
  intros (Hlen1 & Hin1 & Hs1 & Hbest1) (Hlen2 & Hin2 & Hs2 & Hbest2) Hk.
  destruct (decide (k ∈ t2.*1)) as [|Hnot]; [done|]. exfalso.
  apply list_elem_of_fmap in Hk as (x & -> & Hx).
  assert (t2.*1 ⊆+ filter (λ k', k' ≠ x.1) t1.*1) as Hsub.
  { apply NoDup_submseteq; [by apply (ranked_keys_NoDup ks)|].
    intros k' Hk'. apply list_elem_of_filter. split; [by intros ->|].
    destruct (decide (k' ∈ t1.*1)) as [|Hnot']; [done|]. exfalso.
    apply list_elem_of_fmap in Hk' as (y & -> & Hy).
    apply (outranks_asym ks x.1 y.1).
    - apply Hbest1; [by apply Hin2 | done | done].
    - apply Hbest2; [by apply Hin1 | done | done]. }
  apply submseteq_length in Hsub.
  assert (length (filter (λ k', k' ≠ x.1) t1.*1) < length t1.*1) as Hlt.
  { apply (length_filter_lt _ _ x.1); [by apply list_elem_of_fmap_2 | tauto]. }
  rewrite !length_fmap in *. lia.
Qed.

(** Two lists that are both the [n] best ranked keys of [ks] are equal. *)
Lemma ranked_top_unique n ks t1 t2 :
  ranked_top n ks t1 → ranked_top n ks t2 → t1 = t2.
Proof.
  intros H1 H2.
  assert (∀ t t', ranked_top n ks t → ranked_top n ks t' →
                  ∀ x, x ∈ t → x ∈ t') as Hsub.
  { intros t t' Ht Ht' x Hx.
    assert (x.1 ∈ t'.*1) as (y & Hxy & Hy)%list_elem_of_fmap.
    { apply (ranked_top_keys n ks t t'); [done..|].
      by apply list_elem_of_fmap_2. }
    destruct Ht as (_ & Hin & _), Ht' as (_ & Hin' & _).
    destruct (Hin x Hx) as [_ Hnx], (Hin' y Hy) as [_ Hny].
    destruct x as [kx nx], y as [ky ny]. csimpl in *. by subst. }
  destruct H1 as (Hlen1 & Hin1 & Hs1 & Hbest1).
  destruct H2 as (Hlen2 & Hin2 & Hs2 & Hbest2).
  apply (StronglySorted_unique_strong (λ x y, outranks ks x.1 y.1));
    [|done|done|].
  - intros x y _ _ Hxy Hyx. by destruct (outranks_asym ks x.1 y.1).
  - apply NoDup_Permutation.
    + by apply (NoDup_fmap_1 fst), (ranked_keys_NoDup ks).
    + by apply (NoDup_fmap_1 fst), (ranked_keys_NoDup ks).
    + intros x. split; by apply Hsub.
Qed.

Lemma od_lookup_tabulate {V} (g : string → V) m (l : list string) :
  od_lookup m ((λ k, (k, g k)) <$> l) =
  if decide (m ∈ l) then Some (g m) else None.
Proof.
  induction l as [|k l IH]; csimpl; [done|].
  destruct (decide (k = m)) as [->|Hne].
  - rewrite decide_True; [done | apply list_elem_of_here].
  - rewrite IH. destruct (decide (m ∈ l)) as [Hin|Hin].
    + rewrite decide_True; [done | by apply list_elem_of_further].
    + rewrite decide_False; [done|]. rewrite not_elem_of_cons. by split.
Qed.

Lemma od_lookup_shape m md :
  od_lookup m (shape md) =
  if decide (m ∈ od_keys md)
  then Some (shape_month (default new_month (od_lookup m md))) else None.
Proof.
  unfold shape. rewrite od_lookup_tabulate.
  destruct (decide (m ∈ od_keys md)) as [Hin|Hin].
  - rewrite decide_True; [done | by rewrite sorted_perm].
  - rewrite decide_False; [done | by rewrite sorted_perm].
Qed.

Lemma sector_pairs_entries l : sector_pairs (sector_entries l) = l.
Proof.
  unfold sector_pairs, sector_entries. rewrite <- list_fmap_compose.
  rewrite <- (list_fmap_id l) at 2. apply list_fmap_ext. by intros _ [s n] _.
Qed.

Lemma country_pairs_shape cs l : country_pairs (shape_country cs <$> l) = l.
Proof.
  unfold country_pairs. rewrite <- list_fmap_compose.
  rewrite <- (list_fmap_id l) at 2. apply list_fmap_ext. by intros _ [c n] _.
Qed.

(** The shaped month of a month's table is the documented ranking of the
    month's records. *)
Lemma shape_month_ranked (recs : list victim) :
  let s := shape_month (month_table recs) in
  ranked_top 10 (sector_of <$> recs) (sector_pairs (top_sectors s)) ∧
  ranked_top 10 (country_of <$> recs) (country_pairs (top_countries s)) ∧
  ∀ c, c ∈ top_countries s →
    ranked_top 3
      (sector_of <$> filter (λ v, country_of v = country c) recs)
      (sector_pairs (country_top_sectors c)).
Proof.
  csimpl. split_and!.
  - rewrite sector_pairs_entries. apply most_common_ranked.
  - rewrite country_pairs_shape. apply most_common_ranked.
  - intros c (item & -> & Hitem)%list_elem_of_fmap.
    apply most_common_elem_of, tally_entry in Hitem as [Hin _].
    unfold shape_country. csimpl.
    pose proof (month_table_country_sectors item.1 recs) as Hcs.
    unfold month_table in Hcs. csimpl in Hcs. rewrite Hcs.
    rewrite decide_True by done. csimpl.
    rewrite sector_pairs_entries. apply most_common_ranked.
Qed.

Section ranking.
Context {datetime : Type}.
Variable fromisoformat : string → option datetime.
Variable strftime : datetime → string.

Local Abbreviation process_victims :=
  (process_victims fromisoformat strftime).
Local Abbreviation month_victims := (month_victims fromisoformat strftime).

(** Claim C5.  For every month of the aggregation, the output of
    [build_json_output] holds a summary in which the top sectors are the
    ten best ranked sectors of the month's records, the top countries the
    ten best ranked countries, and the breakdown of each top country the
    three best ranked sectors of the month's records of that country (all
    of them when there are fewer): higher counts first and, among equal
    counts, the key met first while scanning the records that the table
    counts.  The text presenter prints the same ranking. *)
Theorem top_lists_ranked vs m :
  m ∈ od_keys (process_victims vs) →
  ∃ s, od_lookup m (build_json_output (process_victims vs)).1 = Some s ∧
    ranked_top 10 (sector_of <$> month_victims m vs)
      (sector_pairs (top_sectors s)) ∧
    ranked_top 10 (country_of <$> month_victims m vs)
      (country_pairs (top_countries s)) ∧
    (∀ c, c ∈ top_countries s →
       ranked_top 3
         (sector_of <$>
            filter (λ v, country_of v = country c) (month_victims m vs))
         (sector_pairs (country_top_sectors c))) ∧
    (print_monthly_summary (process_victims vs)).1 =
      text_of_shaped (build_json_output (process_victims vs)).1.
Proof.
  intros Hm. rewrite build_json_output_aggregation. csimpl.
  rewrite od_lookup_shape, decide_True by done.
  apply od_lookup_is_Some in Hm as [e He]. rewrite He. csimpl.
  apply process_victims_entry in He as [_ ->].
  destruct (shape_month_ranked (month_victims m vs)) as (H1 & H2 & H3).
  eexists. split; [done|]. split_and!; [done..|].
  by rewrite print_monthly_summary_closed by apply process_victims_closed.
Qed.
End ranking.

(** ** The fetcher *)

(** Claim C7.  The fetcher returns the parsed body, and prints nothing,
    exactly when the status is 200 and the body parses; on any other
    status and on any exception it prints one diagnostic and returns the
    empty sequence, which is also what it returns when the API answers 200
    with an empty body: the value returned does not tell a failure from an
    empty result. *)
Theorem fetcher_contract env group_name :
  match fetched (requests_get env (base_url +:+ group_name)) with
  | Some body => get_victims_by_group env group_name = ([], body)
  | None =>
      (∃ msg, get_victims_by_group env group_name = ([print msg], [])) ∧
      (get_victims_by_group env group_name).2 =
        (get_victims_by_group
           (answering [] (file_open env) (file_write env)) group_name).2
  end.
Proof.
  unfold get_victims_by_group, fetched. csimpl.
  destruct (requests_get env (base_url +:+ group_name))
    as [e|status_code [e|victims]]; csimpl.
  - split; [by eexists | done].
  - destruct (decide (status_code = 200)); (split; [by eexists | done]).
  - destruct (decide (status_code = 200)); [done|].
    split; [by eexists | done].
Qed.

Lemma fetch_failure_empty env group_name :
  fetched (requests_get env (base_url +:+ group_name)) = None →
  (get_victims_by_group env group_name).2 = [].
Proof.
  unfold get_victims_by_group, fetched.
  destruct (requests_get env (base_url +:+ group_name))
    as [e|status_code [e|victims]]; csimpl; [done| |].
  - by destruct (decide (status_code = 200)).
  - by destruct (decide (status_code = 200)).
Qed.

(** ** The command line program *)

Lemma fetch_prints env group_name ev :
  ev ∈ (get_victims_by_group env group_name).1 → ∃ text, ev = Stdout text.
Proof.
  unfold get_victims_by_group.
  destruct (requests_get env (base_url +:+ group_name))
    as [e|status_code [e|victims]]; csimpl.
  - intros ->%list_elem_of_singleton. by eexists.
  - destruct (decide (status_code = 200)); csimpl;
      intros ->%list_elem_of_singleton; by eexists.
  - destruct (decide (status_code = 200)); csimpl.
    + by intros ?%elem_of_nil.
    + intros ->%list_elem_of_singleton. by eexists.
Qed.

Lemma json_dumps_empty : json_dumps (output_json []) = "{}".
Proof. reflexivity. Qed.

Lemma csv_text_empty : csv_text (csv_rows []) = header_line.
Proof. reflexivity. Qed.

Lemma render_empty env args : render env args [] = (empty_report env args, []).
Proof.
  unfold render, empty_report.
  change (build_json_output []) with (@nil (string * month_summary),
                                      @nil (string * month_data)).
  unfold write_json_output, write_csv_output, saving.
  rewrite json_dumps_empty, csv_text_empty.
  destruct (format args); [done| |].
  - destruct (given (output args)) as [path|]; [|done].
    destruct (file_open env path); [done|].
    by destruct (file_write env path "{}").
  - destruct (given (output args)) as [path|]; [|done].
    destruct (file_open env path); [done|].
    by destruct (file_write env path header_line).
Qed.

Lemma saving_nonempty env path doc saved failed :
  saving env path doc saved failed ≠ [].
Proof.
  unfold saving. destruct (file_open env path); [done|].
  by destruct (file_write env path doc).
Qed.

Lemma text_of_shaped_nonempty out : text_of_shaped out ≠ [].
Proof. by destruct out. Qed.

Lemma report_nonempty env args out : report env args out ≠ [].
Proof.
  unfold report.
  destruct (format args), (given (output args));
    first [apply text_of_shaped_nonempty | apply saving_nonempty | done].
Qed.

Section main_facts.
Context {datetime : Type}.
Variable fromisoformat : string → option datetime.
Variable strftime : datetime → string.
Variable strip lower : string → string.

Local Abbreviation process_victims :=
  (process_victims fromisoformat strftime).
Local Abbreviation main := (main fromisoformat strftime strip lower).
Local Abbreviation undated := (undated fromisoformat).

Lemma main_no_records env args :
  let group_name := lower (strip (group args)) in
  let fetch := get_victims_by_group env group_name in
  fetch.2 = [] →
  main env args =
  {| trace := print (searching_message group_name)
                :: fetch.1 ++ [print no_victims_message];
     aggregated := None |}.
Proof.
  csimpl. unfold main.
  destruct (get_victims_by_group env (lower (strip (group args))))
    as [diagnostics victims]. csimpl. by intros ->.
Qed.

Lemma main_records env args :
  let group_name := lower (strip (group args)) in
  let fetch := get_victims_by_group env group_name in
  fetch.2 ≠ [] →
  main env args =
  {| trace := print (searching_message group_name)
                :: fetch.1 ++ (render env args (process_victims fetch.2)).1;
     aggregated := Some (process_victims fetch.2) |}.
Proof.
  csimpl. unfold main.
  destruct (get_victims_by_group env (lower (strip (group args))))
    as [diagnostics victims]. csimpl. intros Hne.
  pose proof (render_frame fromisoformat strftime env args victims) as Hf.
  destruct (render env args (process_victims victims)) as [report md].
  csimpl in Hf. subst md. by destruct victims.
Qed.

Lemma render_report env args vs :
  (render env args (process_victims vs)).1 =
  report env args (shape (process_victims vs)).
Proof.
  unfold render, report. rewrite build_json_output_aggregation.
  rewrite print_monthly_summary_closed
    by apply (process_victims_closed fromisoformat strftime).
  unfold write_json_output, write_csv_output, saving, document.
  rewrite (csv_rows_shape fromisoformat strftime). fold (rows_of (shape (process_victims vs))).
  destruct (format args); csimpl; [done| |].
  - destruct (given (output args)) as [path|]; [|done].
    destruct (file_open env path); [done|].
    by destruct (file_write env path _).
  - destruct (given (output args)) as [path|]; [|done].
    destruct (file_open env path); [done|].
    by destruct (file_write env path _).
Qed.

Lemma main_report env args :
  let group_name := lower (strip (group args)) in
  let fetch := get_victims_by_group env group_name in
  fetch.2 ≠ [] →
  main env args =
  {| trace := print (searching_message group_name)
                :: fetch.1 ++ report env args (shape (process_victims fetch.2));
     aggregated := Some (process_victims fetch.2) |}.
Proof.
  csimpl. intros Hne. rewrite (main_records env args Hne).
  by rewrite render_report.
Qed.

(** Claim C8.  When the fetch yields no records, which is the case after
    every fetch failure, the run prints the diagnostic of the fetcher and
    the message for the user and ends: the aggregator is not called,
    nothing is rendered and no file is opened or written.  When the fetch
    yields records, the run aggregates them and goes on to render: after
    the lines of the fetch comes the report of the shaped aggregation in
    the format asked for (the text report, or the JSON or CSV document on
    standard output or saved at the path given), which is never empty. *)
Theorem no_records_no_report env args :
  let group_name := lower (strip (group args)) in
  let fetch := get_victims_by_group env group_name in
  (fetched (requests_get env (base_url +:+ group_name)) = None →
   fetch.2 = []) ∧
  (fetch.2 = [] →
   main env args =
     {| trace := print (searching_message group_name)
                   :: fetch.1 ++ [print no_victims_message];
        aggregated := None |} ∧
   ∀ path content,
     (FileOpen path ∉ trace (main env args)) ∧
     (FileWrite path content ∉ trace (main env args))) ∧
  (fetch.2 ≠ [] →
   main env args =
     {| trace := print (searching_message group_name)
                   :: fetch.1
                   ++ report env args (shape (process_victims fetch.2));
        aggregated := Some (process_victims fetch.2) |} ∧
   report env args (shape (process_victims fetch.2)) ≠ []).
Proof.
  csimpl. split_and!.
  - apply fetch_failure_empty.
  - intros Hnone. rewrite (main_no_records env args Hnone). csimpl.
    split; [done|]. intros path content.
    rewrite !elem_of_cons, !elem_of_app, !list_elem_of_singleton.
    split; intros [?|[[text ?]%fetch_prints|?]]; done.
  - intros Hne. split; [by apply main_report | apply report_nonempty].
Qed.

Lemma process_victims_undated vs : Forall undated vs → process_victims vs = [].
Proof.
  intros Hun. unfold process_victims.
  generalize (@nil (string * month_data)).
  induction Hun as [|v vs Hv _ IH]; intros md; csimpl; [done|].
  rewrite process_victim_eq.
  by rewrite (undated_month_of fromisoformat strftime v Hv).
Qed.

(** A fetched sequence that is not empty but has no dated record is
    aggregated and rendered as an empty report. *)
Lemma main_undated file_open file_write victims args :
  victims ≠ [] → Forall undated victims →
  main (answering victims file_open file_write) args =
  {| trace := print (searching_message (lower (strip (group args))))
                :: empty_report (answering victims file_open file_write) args;
     aggregated := Some [] |}.
Proof.
  intros Hne Hun.
  pose proof (main_records (answering victims file_open file_write) args)
    as Hm.
  csimpl in Hm. rewrite Hm by done.
  by rewrite (process_victims_undated _ Hun), render_empty.
Qed.

(** Claim C10.  There is a fetched sequence, not empty, in which no
    record has a parsable [discovered], on which the run does not end
    early: it aggregates (to no month at all) and renders the empty
    report, that is the notice "No data to display." in text, the empty
    object in JSON and the header row alone in CSV. *)
Theorem undated_records_empty_report :
  ∃ victims : list victim,
    victims ≠ [] ∧ Forall undated victims ∧
    ∀ file_open file_write args,
      main (answering victims file_open file_write) args =
      {| trace := print (searching_message (lower (strip (group args))))
                    :: empty_report (answering victims file_open file_write)
                         args;
         aggregated := Some [] |}.
Proof.
  assert (Forall undated [(∅ : victim)]) as Hun.
  { constructor; [|constructor]. left. apply lookup_empty. }
  exists [∅]. split_and!; [done | done |].
  intros file_open file_write args. by apply main_undated.
Qed.
End main_facts.

(** * Further properties of the aggregator *)

Lemma sum_totals_setitem k (e : month_data) (md : monthly_data) :
  sum_totals (od_setitem k e md) + total (default new_month (od_lookup k md))
  = sum_totals md + total e.
Proof.
  unfold sum_totals. induction md as [|[k' e'] md IH]; csimpl; [lia|].
  destruct (decide (k' = k)); csimpl; lia.
Qed.

Lemma py_or_nonempty v d : d ≠ "" → py_or v d ≠ "".
Proof.
  intros Hd. destruct v as [|s]; csimpl; [done|].
  destruct (String.eqb_spec s ""); csimpl; done.
Qed.

Lemma sector_of_nonempty v : sector_of v ≠ "".
Proof. by apply py_or_nonempty. Qed.

Lemma country_of_nonempty v : country_of v ≠ "".
Proof. by apply py_or_nonempty. Qed.

Lemma occurrences_elem_of k ks : k ∈ ks → 1 ≤ occurrences k ks.
Proof.
  unfold occurrences. intros Hk.
  assert (k ∈ filter (λ x, x = k) ks) as Hin by by apply list_elem_of_filter.
  destruct (filter (λ x, x = k) ks); [by apply elem_of_nil in Hin|].
  csimpl. lia.
Qed.

Section aggregator_more.
Context {datetime : Type}.
Variable fromisoformat : string → option datetime.
Variable strftime : datetime → string.

Local Abbreviation process_victim := (process_victim fromisoformat strftime).
Local Abbreviation process_victims :=
  (process_victims fromisoformat strftime).
Local Abbreviation month_of := (month_of fromisoformat strftime).
Local Abbreviation month_victims := (month_victims fromisoformat strftime).
Local Abbreviation dated := (dated fromisoformat strftime).

Lemma month_total_eq m vs :
  month_total m (process_victims vs) = length (month_victims m vs).
Proof.
  unfold month_total. rewrite process_victims_lookup.
  by destruct (month_victims m vs).
Qed.

Lemma sector_count_eq m s vs :
  sector_count m s (process_victims vs) =
  length (filter (λ v, sector_of v = s) (month_victims m vs)).
Proof.
  unfold sector_count. rewrite process_victims_lookup.
  destruct (month_victims m vs) as [|v recs] eqn:E; [done|].
  apply tally_get.
Qed.

Lemma country_total_eq m c vs :
  country_total m c (process_victims vs) =
  length (filter (λ v, country_of v = c) (month_victims m vs)).
Proof.
  unfold country_total. rewrite process_victims_lookup.
  destruct (month_victims m vs) as [|v recs] eqn:E; [done|].
  apply tally_get.
Qed.

Lemma country_sector_count_eq m c s vs :
  country_sector_count m c s (process_victims vs) =
  length (filter (λ v, country_of v = c ∧ sector_of v = s)
            (month_victims m vs)).
Proof.
  unfold country_sector_count. rewrite process_victims_lookup.
  destruct (month_victims m vs) as [|v recs] eqn:E; [done|].
  apply (@tally_nested_get datetime fromisoformat).
Qed.

(** X1.  A month has an entry in the aggregation exactly when a record is
    dated in it, and then its total is the number of those records. *)
Theorem month_entry_iff_dated vs m :
  total <$> od_lookup m (process_victims vs) =
  match month_victims m vs with
  | [] => None
  | recs => Some (length recs)
  end.
Proof.
  rewrite process_victims_lookup. by destruct (month_victims m vs).
Qed.

Lemma sum_totals_step md v :
  sum_totals (process_victim md v) =
  sum_totals md + match month_of v with Some _ => 1 | None => 0 end.
Proof.
  rewrite process_victim_eq. destruct (month_of v) as [m|]; [|lia].
  pose proof (sum_totals_setitem m
                (add_victim v (default new_month (od_lookup m md))) md) as H.
  unfold add_victim in H. csimpl in H. unfold add_victim. lia.
Qed.

Lemma sum_totals_from vs md :
  sum_totals (fold_left process_victim vs md) =
  sum_totals md + length (filter (λ v, is_Some (month_of v)) vs).
Proof.
  revert md. induction vs as [|v vs IH]; intros md; csimpl; [lia|].
  rewrite IH, sum_totals_step, filter_cons.
  destruct (month_of v) as [m|] eqn:E.
  - rewrite decide_True by by eexists. csimpl. lia.
  - rewrite decide_False by by intros [? ?]. lia.
Qed.

(** X2.  The totals of all months add up to the number of input records
    whose [discovered] parses: every such record is counted once, in one
    month, and no other record is counted. *)
Theorem totals_count_dated_records vs :
  sum_totals (process_victims vs) =
  length (filter (λ v, is_Some (month_of v)) vs) ∧
  sum_totals (process_victims vs) ≤ length vs.
Proof.
  unfold process_victims. rewrite sum_totals_from. csimpl.
  split; [done|]. apply length_filter.
Qed.

Lemma month_victims_app m vs1 vs2 :
  month_victims m (vs1 ++ vs2) = month_victims m vs1 ++ month_victims m vs2.
Proof. apply filter_app. Qed.

(** X3.  Aggregating a concatenation adds up: for every month, sector and
    country, the total and the counts of the three tables of [vs1 ++ vs2]
    are the sums of those of [vs1] and of [vs2] (a month or key that is
    absent counts zero). *)
Theorem aggregation_additive vs1 vs2 m c s :
  month_total m (process_victims (vs1 ++ vs2)) =
    month_total m (process_victims vs1) + month_total m (process_victims vs2) ∧
  sector_count m s (process_victims (vs1 ++ vs2)) =
    sector_count m s (process_victims vs1)
    + sector_count m s (process_victims vs2) ∧
  country_total m c (process_victims (vs1 ++ vs2)) =
    country_total m c (process_victims vs1)
    + country_total m c (process_victims vs2) ∧
  country_sector_count m c s (process_victims (vs1 ++ vs2)) =
    country_sector_count m c s (process_victims vs1)
    + country_sector_count m c s (process_victims vs2).
Proof.
  rewrite !month_total_eq, !sector_count_eq, !country_total_eq,
    !country_sector_count_eq, month_victims_app, !filter_app, !length_app.
  done.
Qed.

Lemma dated_months_list vs : (dated vs).*1 = omap month_of vs.
Proof.
  unfold dated. induction vs as [|v vs IH]; csimpl; [done|].
  destruct (month_of v); csimpl; by rewrite IH.
Qed.

(** X4.  The dictionaries of the aggregation hold their keys in the order in
    which the loop first met them: the months in the order of the first
    record dated in each, and inside a month the sectors and the countries
    in the order of their first record of that month; the nested table
    lists the countries in the same order as the country counter. *)
Theorem aggregation_insertion_order vs :
  od_keys (process_victims vs) = first_seen (omap month_of vs) ∧
  ∀ m e, od_lookup m (process_victims vs) = Some e →
    od_keys (sectors e) = first_seen (sector_of <$> month_victims m vs) ∧
    od_keys (countries e) = first_seen (country_of <$> month_victims m vs) ∧
    od_keys (country_sectors e) = od_keys (countries e).
Proof.
  split.
  - by rewrite process_victims_keys, dated_months_list.
  - intros m e [_ ->]%process_victims_entry. unfold month_table. csimpl.
    rewrite !tally_keys. split_and!; [done | done |]. apply od_group_keys.
Qed.

(** X5.  No table of the aggregation holds an empty name or a zero count:
    every sector and country key is a non-empty string, every count is at
    least one, and every nested sector table has at least one sector. *)
Theorem aggregation_entries_positive vs m e :
  od_lookup m (process_victims vs) = Some e →
  1 ≤ total e ∧
  (∀ s n, (s, n) ∈ sectors e → s ≠ "" ∧ 1 ≤ n) ∧
  (∀ c n, (c, n) ∈ countries e → c ≠ "" ∧ 1 ≤ n) ∧
  (∀ c t, (c, t) ∈ country_sectors e →
     c ≠ "" ∧ t ≠ [] ∧ ∀ s n, (s, n) ∈ t → s ≠ "" ∧ 1 ≤ n).
Proof.
  intros [Hne ->]%process_victims_entry.
  assert (∀ (recs : list victim) (key : victim → string) k n,
            (∀ v, key v ≠ "") → (k, n) ∈ tally key recs → k ≠ "" ∧ 1 ≤ n)
    as Htally.
  { intros recs key k n Hkey [Hk Hn]%tally_entry. csimpl in *. split.
    - apply list_elem_of_fmap in Hk as (v & -> & _). apply Hkey.
    - subst n. by apply occurrences_elem_of. }
  split_and!.
  - csimpl. destruct (month_victims m vs); [done | csimpl; lia].
  - intros s n. apply Htally, sector_of_nonempty.
  - intros c n. apply Htally, country_of_nonempty.
  - intros c t Hct.
    assert (od_lookup c (country_sectors (month_table (month_victims m vs)))
            = Some t) as Hl.
    { apply od_elem_of_lookup; [|done]. unfold month_table. csimpl.
      rewrite od_group_keys. apply first_seen_NoDup. }
    rewrite month_table_country_sectors in Hl.
    destruct (decide (c ∈ country_of <$> month_victims m vs)) as [Hc|];
      [|done].
    injection Hl as <-.
    apply list_elem_of_fmap in Hc as (v & -> & Hv). split_and!.
    + apply country_of_nonempty.
    + intros Hnil. apply (f_equal counter_sum) in Hnil.
      rewrite tally_sum in Hnil. csimpl in Hnil.
      assert (v ∈ filter (λ r, country_of r = country_of v)
                         (month_victims m vs)) as Hin
        by by apply list_elem_of_filter.
      destruct (filter _ _); [by apply elem_of_nil in Hin | done].
    + intros s n. apply Htally, sector_of_nonempty.
Qed.

Lemma process_victim_same_fields md v v' :
  same_fields v v' → process_victim md v = process_victim md v'.
Proof.
  intros (Hd & Ha & Hc). unfold process_victim.
  by rewrite Hd, Ha, Hc.
Qed.

(** X6.  The aggregator reads three fields of a record and nothing else:
    two inputs whose records read the same, one by one, in [discovered],
    [activity] and [country] (a field that is [null] reading as a field
    that is missing) give the same aggregation, whatever else the records
    hold. *)
Theorem only_three_fields_matter vs vs' :
  Forall2 same_fields vs vs' → process_victims vs = process_victims vs'.
Proof.
  unfold process_victims. generalize (@nil (string * month_data)).
  intros md Hall. revert md.
  induction Hall as [|v v' vs vs' Hv _ IH]; intros md; csimpl; [done|].
  by rewrite (process_victim_same_fields md v v' Hv), IH.
Qed.
End aggregator_more.

(** * Further properties of the presenters *)

Section odict_more.
Context {V : Type}.
Implicit Types (d : odict V) (k : string) (v : V).

Lemma od_lookup_snoc k k' v d :
  od_lookup k (d ++ [(k', v)]) =
  match od_lookup k d with
  | Some x => Some x
  | None => if decide (k' = k) then Some v else None
  end.
Proof.
  induction d as [|[k0 v0] d IH]; csimpl; [done|].
  by destruct (decide (k0 = k)).
Qed.

Lemma od_lookup_Some_elem_of k v d : od_lookup k d = Some v → (k, v) ∈ d.
Proof.
  induction d as [|[k' v'] d IH]; csimpl; [done|].
  destruct (decide (k' = k)) as [->|]; intros H.
  - injection H as ->. apply list_elem_of_here.
  - apply list_elem_of_further; auto.
Qed.

Lemma getitem_value dflt k d :
  (defaultdict_getitem dflt k d).1 = default dflt (od_lookup k d).
Proof. unfold defaultdict_getitem. by destruct (od_lookup k d). Qed.

(** What a read of a [defaultdict] does to later reads. *)
Lemma getitem_lookup dflt k k' d :
  od_lookup k (defaultdict_getitem dflt k' d).2 =
  match od_lookup k d with
  | Some x => Some x
  | None => if decide (k' = k) then Some dflt else None
  end.
Proof.
  unfold defaultdict_getitem. destruct (od_lookup k' d) as [x|] eqn:E; csimpl.
  - destruct (od_lookup k d) eqn:E'; [done|].
    destruct (decide (k' = k)) as [->|]; [congruence | done].
  - apply od_lookup_snoc.
Qed.

Lemma getitem_default dflt k k' d :
  default dflt (od_lookup k (defaultdict_getitem dflt k' d).2) =
  default dflt (od_lookup k d).
Proof.
  rewrite getitem_lookup. destruct (od_lookup k d); [done|].
  by destruct (decide (k' = k)).
Qed.

Lemma getitem_keys dflt k d :
  od_keys (defaultdict_getitem dflt k d).2 =
  if decide (k ∈ od_keys d) then od_keys d else od_keys d ++ [k].
Proof.
  unfold defaultdict_getitem. destruct (od_lookup k d) as [x|] eqn:E; csimpl.
  - rewrite decide_True; [done|]. apply od_lookup_is_Some. by eexists.
  - apply od_lookup_None in E. rewrite decide_False by done.
    unfold od_keys. by rewrite fmap_app.
Qed.

(** Two dictionaries with the same keys in the same order and the same
    value at each key are equal. *)
Lemma od_ext d1 d2 :
  NoDup (od_keys d1) → od_keys d1 = od_keys d2 →
  (∀ k, k ∈ od_keys d1 → od_lookup k d1 = od_lookup k d2) → d1 = d2.
Proof.
  unfold od_keys. revert d2.
  induction d1 as [|[k v] d1 IH]; intros [|[k' v'] d2] Hnd Hk Hl;
    csimpl in *; [done | done | done |].
  injection Hk as <- Hk. apply NoDup_cons in Hnd as [Hfresh Hnd].
  pose proof (Hl k (list_elem_of_here _ _)) as Hv.
  rewrite !decide_True in Hv by done. injection Hv as <-.
  f_equal. apply IH; [done | done |].
  intros k0 Hk0. specialize (Hl k0 (list_elem_of_further _ _ _ Hk0)).
  rewrite !decide_False in Hl by (intros ->; done). done.
Qed.

Lemma od_keys_fmap {W} (h : V → W) d :
  od_keys ((λ kv, (kv.1, h kv.2)) <$> d) = od_keys d.
Proof.
  unfold od_keys. rewrite <- list_fmap_compose. by apply list_fmap_ext.
Qed.

Lemma od_lookup_fmap {W} (h : V → W) k d :
  od_lookup k ((λ kv, (kv.1, h kv.2)) <$> d) = h <$> od_lookup k d.
Proof.
  induction d as [|[k' v] d IH]; csimpl; [done|].
  by destruct (decide (k' = k)).
Qed.

Lemma setitem_fold_keys (g : string → V) ms d :
  (∀ m, m ∈ ms → m ∈ od_keys d) →
  od_keys (fold_left (λ d m, od_setitem m (g m) d) ms d) = od_keys d.
Proof.
  revert d. induction ms as [|m ms IH]; intros d Hin; csimpl; [done|].
  assert (od_keys (od_setitem m (g m) d) = od_keys d) as Hk.
  { rewrite od_keys_setitem, decide_True; [done|].
    apply Hin, list_elem_of_here. }
  rewrite IH; [done|]. intros m' Hm'. rewrite Hk.
  by apply Hin, list_elem_of_further.
Qed.

Lemma setitem_fold_lookup (g : string → V) k ms d :
  od_lookup k (fold_left (λ d m, od_setitem m (g m) d) ms d) =
  if decide (k ∈ ms) then Some (g k) else od_lookup k d.
Proof.
  revert d. induction ms as [|m ms IH]; intros d; csimpl; [done|].
  rewrite IH, od_lookup_setitem.
  destruct (decide (k ∈ ms)) as [Hin|Hin].
  - rewrite decide_True; [done | by apply list_elem_of_further].
  - destruct (decide (k = m)) as [->|Hne].
    + rewrite decide_True; [done | apply list_elem_of_here].
    + rewrite decide_False; [done|]. rewrite not_elem_of_cons. by split.
Qed.
End odict_more.

(** ** The sector tables after the lookups of a presenter *)

Lemma with_tables_lookup k items cs :
  od_lookup k (with_tables items cs) =
  match od_lookup k cs with
  | Some t => Some t
  | None => if decide (k ∈ items.*1) then Some [] else None
  end.
Proof.
  unfold with_tables. revert cs.
  induction items as [|[c n] items IH]; intros cs; csimpl.
  - by destruct (od_lookup k cs).
  - rewrite IH, getitem_lookup. destruct (od_lookup k cs) as [t|]; [done|].
    destruct (decide (c = k)) as [->|Hne].
    + rewrite decide_True; [done | apply list_elem_of_here].
    + destruct (decide (k ∈ items.*1)) as [Hin|Hin].
      * rewrite decide_True; [done | by apply list_elem_of_further].
      * rewrite decide_False; [done|]. rewrite not_elem_of_cons. by split.
Qed.

Lemma with_tables_default k items cs :
  default [] (od_lookup k (with_tables items cs)) =
  default [] (od_lookup k cs).
Proof.
  rewrite with_tables_lookup. destruct (od_lookup k cs); [done|].
  by destruct (decide (k ∈ items.*1)).
Qed.

Lemma with_tables_present items cs :
  (∀ item, item ∈ items → item.1 ∈ od_keys cs) → with_tables items cs = cs.
Proof.
  unfold with_tables. induction items as [|[c n] items IH]; intros Hin;
    csimpl; [done|].
  assert (c ∈ od_keys cs) as [t Ht]%od_lookup_is_Some
    by apply (Hin (c, n)), list_elem_of_here.
  rewrite (defaultdict_getitem_present _ _ _ _ Ht). csimpl.
  apply IH. intros. by apply Hin, list_elem_of_further.
Qed.

Lemma shape_country_with_tables items cs item :
  shape_country (with_tables items cs) item = shape_country cs item.
Proof. unfold shape_country. by rewrite with_tables_default. Qed.

Lemma shape_month_touched e : shape_month (touched e) = shape_month e.
Proof.
  unfold shape_month, touched. csimpl. f_equal.
  apply list_fmap_ext. intros _ item _. apply shape_country_with_tables.
Qed.

Lemma touched_touched e : touched (touched e) = touched e.
Proof.
  unfold touched at 1 3. csimpl. unfold set_country_sectors. csimpl.
  f_equal. apply with_tables_present. intros item Hitem.
  apply od_lookup_is_Some. rewrite with_tables_lookup.
  destruct (od_lookup item.1 (country_sectors e)); [by eexists|].
  rewrite decide_True; [by eexists|]. by apply list_elem_of_fmap_2.
Qed.

(** ** The presenters on any dictionary *)

Lemma json_country_any acc cs item :
  json_country (acc, cs) item =
  (acc ++ [shape_country cs item], (defaultdict_getitem [] item.1 cs).2).
Proof.
  destruct item as [c n]. unfold json_country, shape_country. csimpl.
  rewrite <- (getitem_value [] c cs).
  by destruct (defaultdict_getitem [] c cs).
Qed.

Lemma json_country_fold_any items cs acc :
  fold_left json_country items (acc, cs) =
  (acc ++ (shape_country cs <$> items), with_tables items cs).
Proof.
  unfold with_tables. revert acc cs.
  induction items as [|item items IH]; intros acc cs.
  - csimpl. by rewrite app_nil_r.
  - cbn [fold_left]. rewrite json_country_any, IH, <- app_assoc. csimpl.
    do 3 f_equal. apply list_fmap_ext. intros _ item' _.
    unfold shape_country. by rewrite getitem_default.
Qed.

Lemma json_month_any out md m e :
  od_lookup m md = Some e →
  json_month (out, md) m =
  (od_setitem m (shape_month e) out, od_setitem m (touched e) md).
Proof.
  intros He. unfold json_month.
  rewrite (defaultdict_getitem_present _ _ _ _ He).
  by rewrite json_country_fold_any.
Qed.

Lemma text_country_any out cs item :
  text_country (out, cs) item =
  (out ++ text_country_lines (shape_country cs item),
   (defaultdict_getitem [] item.1 cs).2).
Proof.
  destruct item as [c n].
  unfold text_country, text_country_lines, shape_country.
  cbn [country country_count country_top_sectors fst snd].
  rewrite <- (getitem_value [] c cs).
  destruct (defaultdict_getitem [] c cs) as [t cs']. cbn [fst snd].
  destruct (most_common 3 t) as [|x l] eqn:E; [done|].
  destruct (sector_entries (x :: l)) as [|e es] eqn:Es; [done|].
  rewrite <- Es, text_sector_entries, <- app_assoc. done.
Qed.

Lemma text_country_fold_any items cs out :
  fold_left text_country items (out, cs) =
  (out ++ concat (text_country_lines ∘ shape_country cs <$> items),
   with_tables items cs).
Proof.
  unfold with_tables. revert out cs.
  induction items as [|item items IH]; intros out cs.
  - csimpl. by rewrite app_nil_r.
  - cbn [fold_left]. rewrite text_country_any, IH.
    assert ((text_country_lines
               ∘ shape_country (defaultdict_getitem [] item.1 cs).2 <$> items)
            = (text_country_lines ∘ shape_country cs <$> items)) as ->.
    { apply list_fmap_ext. intros _ item' _. cbn [compose].
      unfold shape_country. by rewrite getitem_default. }
    rewrite fmap_cons. cbn [concat compose]. by rewrite <- app_assoc.
Qed.

Lemma text_month_any out md m e :
  od_lookup m md = Some e →
  text_month (out, md) m =
  (out ++ text_month_lines (m, shape_month e), od_setitem m (touched e) md).
Proof.
  intros He. unfold text_month.
  rewrite (defaultdict_getitem_present _ _ _ _ He).
  rewrite text_country_fold_any. f_equal.
  unfold text_month_lines, shape_month. csimpl.
  rewrite <- !app_assoc. csimpl. do 4 f_equal.
  rewrite <- !app_assoc. f_equal.
  - unfold sector_entries. rewrite <- list_fmap_compose.
    apply list_fmap_ext. by intros _ [s' k'] _.
  - csimpl. do 2 f_equal. by rewrite <- list_fmap_compose.
Qed.

(** A loop over distinct months each step of which reads the month's entry,
    extends an accumulator and stores the touched entry. *)
Section months_loop.
Context {Acc : Type}.
Variable step : Acc * monthly_data → string → Acc * monthly_data.
Variable extend : Acc → string → month_data → Acc.
Hypothesis step_spec : ∀ acc md m e,
  od_lookup m md = Some e →
  step (acc, md) m = (extend acc m e, od_setitem m (touched e) md).

Lemma months_loop md0 ms acc d :
  NoDup ms →
  (∀ m, m ∈ ms → is_Some (od_lookup m md0) ∧ od_lookup m d = od_lookup m md0) →
  fold_left step ms (acc, d) =
  (fold_left (λ acc m, extend acc m (default new_month (od_lookup m md0)))
     ms acc,
   fold_left (λ d m,
      od_setitem m (touched (default new_month (od_lookup m md0))) d) ms d).
Proof.
  revert acc d. induction ms as [|m ms IH]; intros acc d Hnd Hin; [done|].
  apply NoDup_cons in Hnd as [Hm Hnd]. cbn [fold_left].
  destruct (Hin m (list_elem_of_here _ _)) as [[e He] Hd].
  rewrite He in Hd. rewrite (step_spec _ _ _ _ Hd), He. csimpl.
  apply IH; [done|]. intros m' Hm'.
  destruct (Hin m' (list_elem_of_further _ _ _ Hm')) as [Hs Hd'].
  split; [done|]. rewrite od_lookup_setitem, decide_False; [done|].
  by intros ->.
Qed.
End months_loop.

Lemma rendered_fold md ms :
  NoDup (od_keys md) → ms ≡ₚ od_keys md →
  fold_left (λ d m,
     od_setitem m (touched (default new_month (od_lookup m md))) d) ms md
  = rendered md.
Proof.
  intros Hnd Hms. 
  assert (od_keys (fold_left (λ d m,
     od_setitem m (touched (default new_month (od_lookup m md))) d) ms md)
          = od_keys md) as Hkeys.
  { apply setitem_fold_keys. intros m. by rewrite Hms. }
  apply od_ext.
  - by rewrite Hkeys.
  - unfold rendered. by rewrite Hkeys, od_keys_fmap.
  - intros k Hk. rewrite Hkeys in Hk. rewrite setitem_fold_lookup.
    rewrite decide_True by by rewrite Hms.
    unfold rendered. rewrite od_lookup_fmap.
    apply od_lookup_is_Some in Hk as [e He]. by rewrite He.
Qed.

Lemma sorted_keys_loop (md : monthly_data) m :
  m ∈ sorted (od_keys md) →
  is_Some (od_lookup m md) ∧ od_lookup m md = od_lookup m md.
Proof. rewrite sorted_perm. intros Hm. split; [by apply od_lookup_is_Some | done]. Qed.

(** On every dictionary with distinct keys, [build_json_output] returns the
    shaped result and leaves the dictionary with the touched entries. *)
Lemma build_json_output_any md :
  NoDup (od_keys md) → build_json_output md = (shape md, rendered md).
Proof.
  intros Hnd. unfold build_json_output.
  rewrite (months_loop json_month (λ out m e, od_setitem m (shape_month e) out)
             json_month_any md).
  - f_equal.
    + rewrite setitem_fresh_fold; [done| |].
      * by rewrite sorted_perm.
      * intros m _. apply not_elem_of_nil.
    + apply rendered_fold; [done | apply sorted_perm].
  - by rewrite sorted_perm.
  - apply sorted_keys_loop.
Qed.

Lemma print_monthly_summary_any md :
  NoDup (od_keys md) →
  print_monthly_summary md = (text_of_shaped (shape md), rendered md).
Proof.
  intros Hnd.
  pose proof (months_loop text_month
                (λ out m e, out ++ text_month_lines (m, shape_month e))
                text_month_any md (sorted (od_keys md)) [] md) as Hfold.
  rewrite rendered_fold in Hfold by (done || apply sorted_perm).
  unfold print_monthly_summary, text_of_shaped.
  destruct (shape md) as [|x out] eqn:Es.
  - apply shape_nil in Es. by subst md.
  - destruct md as [|kv md']; [done|].
    rewrite Hfold; [|by rewrite sorted_perm | apply sorted_keys_loop].
    f_equal. rewrite <- Es. unfold shape.
    generalize (sorted (od_keys (kv :: md'))). intros ms.
    rewrite <- (app_nil_l (concat _)). generalize (@nil event).
    induction ms as [|m ms IH]; intros acc; csimpl.
    + by rewrite app_nil_r.
    + by rewrite IH, <- app_assoc.
Qed.

Lemma shape_rendered md : shape (rendered md) = shape md.
Proof.
  unfold shape, rendered. rewrite od_keys_fmap.
  apply list_fmap_ext. intros _ m _. rewrite od_lookup_fmap.
  destruct (od_lookup m md) as [e|]; csimpl; [|done].
  by rewrite shape_month_touched.
Qed.

Lemma rendered_rendered md : rendered (rendered md) = rendered md.
Proof.
  unfold rendered. rewrite <- list_fmap_compose.
  apply list_fmap_ext. intros _ [m e] _. csimpl. by rewrite touched_touched.
Qed.

Lemma od_lookup_shape_entry m e md :
  od_lookup m md = Some e → od_lookup m (shape md) = Some (shape_month e).
Proof.
  intros He. rewrite od_lookup_shape, decide_True, He; [done|].
  apply od_lookup_is_Some. by eexists.
Qed.

(** X7.  On every dictionary of months with distinct keys, the output of
    [build_json_output] has the months of the dictionary as its keys, in
    ascending order, and holds for each month the summary of that month's
    own entry: its total, the [most_common(10)] of its sectors and of its
    countries and, for each of these countries, the [most_common(3)] of its
    sector table (none for a country without a table). *)
Theorem json_output_months md :
  NoDup (od_keys md) →
  od_keys (build_json_output md).1 = sorted (od_keys md) ∧
  Sorted key_le (od_keys (build_json_output md).1) ∧
  od_keys (build_json_output md).1 ≡ₚ od_keys md ∧
  ∀ m e, od_lookup m md = Some e →
    od_lookup m (build_json_output md).1 =
    Some {| total_victims := total e;
            top_sectors := sector_entries (most_common 10 (sectors e));
            top_countries :=
              (λ item,
                 {| country := item.1; country_count := item.2;
                    country_top_sectors :=
                      sector_entries
                        (most_common 3
                           (default [] (od_lookup item.1 (country_sectors e))))
                 |}) <$> most_common 10 (countries e) |}.
Proof.
  intros Hnd. rewrite build_json_output_any by done. csimpl.
  rewrite od_keys_shape. split_and!.
  - done.
  - apply sorted_sorted.
  - apply sorted_perm.
  - intros m e He. by rewrite (od_lookup_shape_entry m e md He).
Qed.

(** X8.  What [build_json_output] does to the dictionary it is given (with
    distinct keys): it keeps the months and their order and, in every
    month, the total, the sector counter and the country counter; it
    keeps every sector table there is; all it can add is an empty table
    for one of the ten most common countries that had none. *)
Theorem json_builder_only_adds_empty_tables md :
  NoDup (od_keys md) →
  od_keys (build_json_output md).2 = od_keys md ∧
  ∀ m e, od_lookup m md = Some e →
    ∃ e', od_lookup m (build_json_output md).2 = Some e' ∧
      total e' = total e ∧ sectors e' = sectors e ∧
      countries e' = countries e ∧
      (∀ c t, od_lookup c (country_sectors e) = Some t →
              od_lookup c (country_sectors e') = Some t) ∧
      (∀ c t, od_lookup c (country_sectors e') = Some t →
              od_lookup c (country_sectors e) = Some t ∨
              (od_lookup c (country_sectors e) = None ∧ t = [] ∧
               c ∈ (most_common 10 (countries e)).*1)).
Proof.
  intros Hnd. rewrite build_json_output_any by done. csimpl. split.
  - apply od_keys_fmap.
  - intros m e He. exists (touched e). unfold rendered.
    rewrite od_lookup_fmap, He. split_and!; [done..| |].
    + intros c t Ht. unfold touched. csimpl.
      by rewrite with_tables_lookup, Ht.
    + intros c t. unfold touched. csimpl. rewrite with_tables_lookup.
      destruct (od_lookup c (country_sectors e)) as [t'|]; [by left|].
      destruct (decide (c ∈ (most_common 10 (countries e)).*1)); [|done].
      intros [= <-]. by right.
Qed.

(** X9.  Rendering is repeatable: calling [build_json_output] again on the
    dictionary a first call has left gives the same output and changes
    nothing more. *)
Theorem json_builder_repeatable md :
  NoDup (od_keys md) →
  build_json_output (build_json_output md).2 = build_json_output md.
Proof.
  intros Hnd. rewrite (build_json_output_any md Hnd). csimpl.
  rewrite build_json_output_any.
  - by rewrite shape_rendered, rendered_rendered.
  - unfold rendered. by rewrite od_keys_fmap.
Qed.

(** X10.  On every dictionary of months with distinct keys, the text
    presenter prints the report of exactly the result [build_json_output]
    returns, and does to the dictionary what [build_json_output] does. *)
Theorem text_report_of_json_output md :
  NoDup (od_keys md) →
  print_monthly_summary md =
  (text_of_shaped (build_json_output md).1, (build_json_output md).2).
Proof.
  intros Hnd.
  by rewrite print_monthly_summary_any, build_json_output_any.
Qed.

(** ** The report of an aggregation *)

Lemma counter_sum_perm (c c' : Counter) :
  c ≡ₚ c' → counter_sum c = counter_sum c'.
Proof. unfold counter_sum. by intros ->. Qed.

Lemma counter_sum_take n (c : Counter) : counter_sum (take n c) ≤ counter_sum c.
Proof.
  unfold counter_sum. rewrite <- (take_drop n c) at 2.
  rewrite fmap_app, sum_list_with_app. lia.
Qed.

Lemma most_common_length n (c : Counter) :
  length (most_common n c) = n `min` length c.
Proof.
  unfold most_common. by rewrite length_take, sorted_by_count_perm.
Qed.

Lemma most_common_sum n (c : Counter) :
  counter_sum (most_common n c) ≤ counter_sum c.
Proof.
  unfold most_common. rewrite <- (counter_sum_perm _ _ (sorted_by_count_perm c)).
  apply counter_sum_take.
Qed.

Lemma most_common_all n (c : Counter) :
  length c ≤ n → counter_sum (most_common n c) = counter_sum c.
Proof.
  intros Hn. unfold most_common. rewrite take_ge.
  - apply counter_sum_perm, sorted_by_count_perm.
  - by rewrite sorted_by_count_perm.
Qed.

Lemma most_common_short n (c : Counter) :
  (∀ x, x ∈ c → 1 ≤ x.2) → n < length c →
  counter_sum (most_common n c) < counter_sum c.
Proof.
  intros Hpos Hn. unfold most_common.
  rewrite <- (counter_sum_perm _ _ (sorted_by_count_perm c)).
  assert (n < length (sorted_by_count c)) as Hlen
    by by rewrite sorted_by_count_perm.
  assert (∀ x, x ∈ sorted_by_count c → 1 ≤ x.2) as Hpos'.
  { intros x Hx. apply Hpos. by rewrite <- (sorted_by_count_perm c). }
  revert Hlen Hpos'. generalize (sorted_by_count c). intros l Hlen Hl.
  unfold counter_sum. rewrite <- (take_drop n l) at 2.
  rewrite fmap_app, sum_list_with_app.
  destruct (drop n l) as [|x rest] eqn:Hdrop.
  - apply (f_equal length) in Hdrop. rewrite length_drop in Hdrop.
    csimpl in Hdrop. lia.
  - assert (x ∈ l) as Hx.
    { apply (subseteq_drop n l). rewrite Hdrop. apply list_elem_of_here. }
    apply Hl in Hx. csimpl. lia.
Qed.

(** The sum of the [n] most common counts of a tally is the number of
    items tallied exactly when the tally has no more than [n] keys. *)
Lemma most_common_tally_sum {A} (key : A → string) n (xs : list A) :
  counter_sum (most_common n (tally key xs)) = length xs ↔
  length (first_seen (key <$> xs)) ≤ n.
Proof.
  rewrite <- tally_keys. unfold od_keys. rewrite length_fmap.
  rewrite <- (tally_sum key xs) at 1. split.
  - intros Heq. destruct (decide (length (tally key xs) ≤ n)); [done|].
    assert (counter_sum (most_common n (tally key xs))
            < counter_sum (tally key xs)); [|lia].
    apply most_common_short; [|lia].
    intros x [Hin ->]%tally_entry. by apply occurrences_elem_of.
  - apply most_common_all.
Qed.

Lemma tally_nonempty {A} (key : A → string) (xs : list A) :
  xs ≠ [] → tally key xs ≠ [].
Proof.
  intros Hne Hnil. apply (f_equal counter_sum) in Hnil.
  rewrite tally_sum in Hnil. by destruct xs.
Qed.

Lemma most_common_nonempty n (c : Counter) :
  0 < n → c ≠ [] → most_common n c ≠ [].
Proof.
  intros Hn Hc Hnil. apply (f_equal length) in Hnil.
  rewrite most_common_length in Hnil. destruct c; [done|].
  csimpl in Hnil. lia.
Qed.

Lemma sector_entries_nonempty l : l ≠ [] → sector_entries l ≠ [].
Proof. by destruct l. Qed.

(** The breakdown of a top country in the shaped month of a month's
    records. *)
Lemma shape_month_breakdown (recs : list victim) c :
  c ∈ top_countries (shape_month (month_table recs)) →
  ∃ item, item ∈ most_common 10 (tally country_of recs) ∧
    country c = item.1 ∧ country_count c = item.2 ∧
    item.2 = length (filter (λ v, country_of v = item.1) recs) ∧
    filter (λ v, country_of v = item.1) recs ≠ [] ∧
    country_top_sectors c =
      sector_entries
        (most_common 3
           (tally sector_of (filter (λ v, country_of v = item.1) recs))).
Proof.
  csimpl. intros (item & -> & Hitem)%list_elem_of_fmap.
  exists item. split; [done|].
  pose proof Hitem as [Hin Hn]%most_common_elem_of%tally_entry.
  rewrite occurrences_fmap in Hn.
  unfold shape_country. csimpl.
  pose proof (month_table_country_sectors item.1 recs) as Hcs.
  unfold month_table in Hcs. csimpl in Hcs. rewrite Hcs.
  rewrite decide_True by done. csimpl. split_and!; [done..| |done].
  apply list_elem_of_fmap in Hin as (v & Hv & Hvin). intros Hnil.
  assert (v ∈ filter (λ r, country_of r = item.1) recs) as Hf
    by by apply list_elem_of_filter.
  rewrite Hnil in Hf. by apply elem_of_nil in Hf.
Qed.

Section report_facts.
Context {datetime : Type}.
Variable fromisoformat : string → option datetime.
Variable strftime : datetime → string.

Local Abbreviation process_victims :=
  (process_victims fromisoformat strftime).
Local Abbreviation month_victims := (month_victims fromisoformat strftime).

Lemma report_month vs m s :
  od_lookup m (build_json_output (process_victims vs)).1 = Some s →
  month_victims m vs ≠ [] ∧ s = shape_month (month_table (month_victims m vs)).
Proof.
  rewrite build_json_output_aggregation. csimpl. rewrite od_lookup_shape.
  destruct (decide (m ∈ od_keys (process_victims vs))) as [Hm|]; [|done].
  apply od_lookup_is_Some in Hm as [e He]. rewrite He. csimpl.
  intros [= <-]. by apply process_victims_entry in He as [? ->].
Qed.

(** X11.  In the report of an aggregation, every month lists at most ten
    sectors and ten countries and every country at most three sectors; the
    counts listed never add up to more than what they break down (the
    month's total, the country's count).  They add up to it exactly when
    nothing was cut: the sector counts of a month to its total if and only
    if the month has no more than ten sectors, the country counts likewise
    if and only if it has no more than ten countries, and the breakdown
    of a country to the country's count if and only if the country has no
    more than three sectors in that month. *)
Theorem report_bounds vs m s :
  od_lookup m (build_json_output (process_victims vs)).1 = Some s →
  length (top_sectors s) ≤ 10 ∧ length (top_countries s) ≤ 10 ∧
  counter_sum (sector_pairs (top_sectors s)) ≤ total_victims s ∧
  counter_sum (country_pairs (top_countries s)) ≤ total_victims s ∧
  (counter_sum (sector_pairs (top_sectors s)) = total_victims s ↔
   length (first_seen (sector_of <$> month_victims m vs)) ≤ 10) ∧
  (counter_sum (country_pairs (top_countries s)) = total_victims s ↔
   length (first_seen (country_of <$> month_victims m vs)) ≤ 10) ∧
  ∀ c, c ∈ top_countries s →
    length (country_top_sectors c) ≤ 3 ∧
    counter_sum (sector_pairs (country_top_sectors c)) ≤ country_count c ∧
    (counter_sum (sector_pairs (country_top_sectors c)) = country_count c ↔
     length (first_seen
               (sector_of <$> filter (λ v, country_of v = country c)
                                (month_victims m vs))) ≤ 3).
Proof.
  intros [_ ->]%report_month. set (recs := month_victims m vs).
  assert (∀ n l, length (sector_entries (most_common n l)) ≤ n) as Hlen.
  { intros n l. unfold sector_entries.
    rewrite length_fmap, most_common_length. lia. }
  split_and!.
  - apply Hlen.
  - csimpl. rewrite length_fmap, most_common_length. lia.
  - csimpl. rewrite sector_pairs_entries.
    rewrite <- (tally_sum sector_of recs). apply most_common_sum.
  - csimpl. rewrite country_pairs_shape.
    rewrite <- (tally_sum country_of recs). apply most_common_sum.
  - csimpl. rewrite sector_pairs_entries. apply most_common_tally_sum.
  - csimpl. rewrite country_pairs_shape. apply most_common_tally_sum.
  - intros c (item & _ & -> & -> & -> & _ & ->)%shape_month_breakdown.
    rewrite sector_pairs_entries. split_and!.
    + apply Hlen.
    + rewrite <- (tally_sum sector_of (filter _ recs)). apply most_common_sum.
    + apply most_common_tally_sum.
Qed.

(** X12.  The report of an aggregation has no empty part: every month in it
    has at least one victim, one sector and one country, and every country
    listed has a count of at least one and a breakdown that is not empty
    (so the line "Affected sectors:" is printed for each). *)
Theorem report_parts_nonempty vs m s :
  od_lookup m (build_json_output (process_victims vs)).1 = Some s →
  1 ≤ total_victims s ∧ top_sectors s ≠ [] ∧ top_countries s ≠ [] ∧
  ∀ c, c ∈ top_countries s →
    1 ≤ country_count c ∧ country_top_sectors c ≠ [] ∧
    text_country_lines c =
      print ("    - " +:+ country c +:+ ": " +:+ str (country_count c))
      :: print ("       " +:+ Fore.YELLOW +:+ "Affected sectors:")
      :: (text_sector "         * " <$> country_top_sectors c).
Proof.
  intros [Hne ->]%report_month. set (recs := month_victims m vs) in *.
  split_and!.
  - csimpl. destruct recs; [done | csimpl; lia].
  - apply sector_entries_nonempty, most_common_nonempty; [lia|].
    by apply tally_nonempty.
  - csimpl. intros Hnil%fmap_nil_inv. revert Hnil.
    apply most_common_nonempty; [lia | by apply tally_nonempty].
  - intros c (item & _ & _ & Hc & Hn & Hf & Hb)%shape_month_breakdown.
    assert (country_top_sectors c ≠ []) as Hnonempty.
    { rewrite Hb. apply sector_entries_nonempty, most_common_nonempty; [lia|].
      by apply tally_nonempty. }
    split_and!.
    + rewrite Hc, Hn. destruct (filter _ recs); [done | csimpl; lia].
    + done.
    + unfold text_country_lines.
      by destruct (country_top_sectors c).
Qed.
End report_facts.

(** ** The report of a reordered input *)

Lemma Sorted_key_le_le l : Sorted key_le l → Sorted String.le l.
Proof.
  induction 1 as [|k l Hl IH Hhd]; constructor; [done|].
  destruct Hhd as [|k' l' Hle]; constructor.
  unfold String.le. unfold key_le in Hle. by rewrite Hle.
Qed.

(** Sorting does not depend on the order of the keys it is given. *)
Lemma sorted_permutation l l' : l ≡ₚ l' → sorted l = sorted l'.
Proof.
  intros Hp. apply (Sorted_unique String.le).
  - apply Sorted_key_le_le, sorted_sorted.
  - apply Sorted_key_le_le, sorted_sorted.
  - by rewrite !sorted_perm.
Qed.

Lemma first_seen_permutation ks ks' :
  ks ≡ₚ ks' → first_seen ks ≡ₚ first_seen ks'.
Proof.
  intros Hp. apply NoDup_Permutation; [apply first_seen_NoDup..|].
  intros k. by rewrite !first_seen_elem_of, Hp.
Qed.

Lemma tally_permutation {A} (key : A → string) (xs ys : list A) :
  xs ≡ₚ ys → tally key xs ≡ₚ tally key ys.
Proof.
  intros Hp.
  assert (∀ zs : list A, NoDup (tally key zs)) as Hnd.
  { intros zs. apply (NoDup_fmap_1 fst), tally_NoDup. }
  assert (∀ zs zs' x, zs ≡ₚ zs' → x ∈ tally key zs → x ∈ tally key zs')
    as Hsub.
  { intros zs zs' [k n] Hzs Hx.
    pose proof (tally_entry key zs _ Hx) as [Hk Hn]. csimpl in *.
    apply od_lookup_Some_elem_of. rewrite tally_lookup.
    rewrite decide_True by by rewrite <- Hzs.
    by rewrite Hn, occurrences_fmap, Hzs. }
  apply NoDup_Permutation; [done | done |].
  intros x. split; apply Hsub; [done | by symmetry].
Qed.

Section reordered_report.
Context {datetime : Type}.
Variable fromisoformat : string → option datetime.
Variable strftime : datetime → string.

Local Abbreviation process_victims :=
  (process_victims fromisoformat strftime).
Local Abbreviation month_of := (month_of fromisoformat strftime).
Local Abbreviation month_victims := (month_victims fromisoformat strftime).

(** X16.  Reordering the input changes the report at most where counts tie
    or the cut at ten falls: the JSON outputs of an input and of a
    permutation of it have the same months in the same order and the same
    total for each month, and for a month with no more than ten sectors
    (countries) the two lists of top sectors (countries) hold the same
    entries with the same counts. *)
Theorem report_of_permuted_input vs vs' :
  vs ≡ₚ vs' →
  od_keys (build_json_output (process_victims vs)).1 =
  od_keys (build_json_output (process_victims vs')).1 ∧
  ∀ m s s',
    od_lookup m (build_json_output (process_victims vs)).1 = Some s →
    od_lookup m (build_json_output (process_victims vs')).1 = Some s' →
    total_victims s = total_victims s' ∧
    (length (first_seen (sector_of <$> month_victims m vs)) ≤ 10 →
     sector_pairs (top_sectors s) ≡ₚ sector_pairs (top_sectors s')) ∧
    (length (first_seen (country_of <$> month_victims m vs)) ≤ 10 →
     country_pairs (top_countries s) ≡ₚ country_pairs (top_countries s')).
Proof.
  intros Hp. split.
  - rewrite !build_json_output_aggregation. csimpl. rewrite !od_keys_shape.
    apply sorted_permutation. rewrite !process_victims_keys.
    apply first_seen_permutation.
    rewrite !(dated_months_list fromisoformat strftime). by rewrite Hp.
  - intros m s s' [_ ->]%report_month [_ ->]%report_month.
    assert (month_victims m vs ≡ₚ month_victims m vs') as Hm.
    { unfold month_victims. by rewrite Hp. }
    assert (∀ (key : victim → string),
              length (first_seen (key <$> month_victims m vs)) ≤ 10 →
              most_common 10 (tally key (month_victims m vs)) ≡ₚ
              most_common 10 (tally key (month_victims m vs'))) as Hall.
    { intros key Hfew. unfold most_common.
      rewrite !take_ge, !sorted_by_count_perm.
      - by apply tally_permutation.
      - rewrite sorted_by_count_perm, <- (length_fmap fst).
        fold (od_keys (tally key (month_victims m vs'))).
        by rewrite tally_keys, <- (first_seen_permutation _ _ (fmap_Permutation key _ _ Hm)).
      - rewrite sorted_by_count_perm, <- (length_fmap fst).
        fold (od_keys (tally key (month_victims m vs))).
        by rewrite tally_keys. }
    split_and!.
    + csimpl. by rewrite Hm.
    + intros Hfew. csimpl. rewrite !sector_pairs_entries. by apply Hall.
    + intros Hfew. csimpl. rewrite !country_pairs_shape. by apply Hall.
Qed.
End reordered_report.

(** ** The CSV rows of any output *)

Lemma csv_rows_months (json_data : odict month_summary) (ms : list string) :
  (∀ m, m ∈ ms → m ∈ od_keys json_data) →
  Month <$> omap (λ month, csv_row_of month <$> od_lookup month json_data) ms
  = ms.
Proof.
  induction ms as [|m ms IH]; intros Hin; csimpl; [done|].
  assert (m ∈ od_keys json_data) as [s Hs]%od_lookup_is_Some
    by apply Hin, list_elem_of_here.
  rewrite Hs. csimpl. f_equal. apply IH. intros. by apply Hin, list_elem_of_further.
Qed.

(** X13.  Whatever the order of the months in the dictionary it is given,
    [write_csv_output] collects one row for each month, in ascending order
    of the months, and each row is the row of the summary stored at its
    month: the lookup [json_data[month]] never misses. *)
Theorem csv_rows_ascending (json_data : odict month_summary) :
  Month <$> csv_rows json_data = sorted (od_keys json_data) ∧
  Sorted key_le (Month <$> csv_rows json_data) ∧
  length (csv_rows json_data) = length json_data ∧
  ∀ row, row ∈ csv_rows json_data →
    ∃ summary, od_lookup (Month row) json_data = Some summary ∧
               row = csv_row_of (Month row) summary.
Proof.
  assert (Month <$> csv_rows json_data = sorted (od_keys json_data)) as Hm.
  { apply csv_rows_months. intros m. by rewrite sorted_perm. }
  split_and!.
  - done.
  - rewrite Hm. apply sorted_sorted.
  - rewrite <- (length_fmap Month), Hm, sorted_perm. unfold od_keys.
    by rewrite length_fmap.
  - intros row (m & _ & Hrow)%list_elem_of_omap.
    destruct (od_lookup m json_data) as [s|] eqn:Hs; [|done].
    injection Hrow as <-. csimpl. by exists s.
Qed.

(** ** What a run writes *)

Lemma elem_of_concat_inv {A} (x : A) (ls : list (list A)) :
  x ∈ concat ls → ∃ l, x ∈ l ∧ l ∈ ls.
Proof.
  induction ls as [|l ls IH]; csimpl; [by intros ?%elem_of_nil|].
  intros [Hx|Hx]%elem_of_app.
  - exists l. split; [done | apply list_elem_of_here].
  - destruct (IH Hx) as (l' & ? & ?). exists l'.
    split; [done | by apply list_elem_of_further].
Qed.

Lemma text_country_lines_prints c ev :
  ev ∈ text_country_lines c → ∃ text, ev = Stdout text.
Proof.
  unfold text_country_lines. intros [->|Hev]%elem_of_cons; [by eexists|].
  destruct (country_top_sectors c) as [|e es]; [by apply elem_of_nil in Hev|].
  apply elem_of_cons in Hev as [->|Hev]; [by eexists|].
  apply list_elem_of_fmap in Hev as (x & -> & _). by eexists.
Qed.

Lemma text_month_lines_prints ms ev :
  ev ∈ text_month_lines ms → ∃ text, ev = Stdout text.
Proof.
  unfold text_month_lines. rewrite !elem_of_app.
  intros [Hev|[Hev|[Hev|[Hev|Hev]]]].
  - repeat (apply elem_of_cons in Hev as [->|Hev]; [by eexists|]).
    by apply elem_of_nil in Hev.
  - apply list_elem_of_fmap in Hev as (x & -> & _). by eexists.
  - apply list_elem_of_singleton in Hev as ->. by eexists.
  - apply elem_of_concat_inv in Hev as (lines & Hev & Hl).
    apply list_elem_of_fmap in Hl as (c & -> & _).
    by apply text_country_lines_prints in Hev.
  - apply list_elem_of_singleton in Hev as ->. by eexists.
Qed.

Lemma text_of_shaped_prints out ev :
  ev ∈ text_of_shaped out → ∃ text, ev = Stdout text.
Proof.
  unfold text_of_shaped. destruct out as [|x out].
  - intros ->%list_elem_of_singleton. by eexists.
  - intros (lines & Hev & Hl)%elem_of_concat_inv.
    apply list_elem_of_fmap in Hl as (ms & -> & _).
    by apply text_month_lines_prints in Hev.
Qed.

Lemma file_events_app t1 t2 :
  file_events (t1 ++ t2) = file_events t1 ++ file_events t2.
Proof. apply filter_app. Qed.

Lemma file_events_prints t :
  (∀ ev, ev ∈ t → ∃ text, ev = Stdout text) → file_events t = [].
Proof.
  intros Hall. apply filter_none. intros ev [text ->]%Hall. done.
Qed.

Lemma file_events_saving env path doc saved failed :
  file_events (saving env path doc saved failed) =
  match file_open env path with
  | Some _ => []
  | None => [FileOpen path; FileWrite path (reaches env path doc)]
  end.
Proof.
  unfold saving, reaches. destruct (file_open env path); [done|].
  by destruct (file_write env path doc).
Qed.

Lemma file_events_report env args out :
  file_events (report env args out) =
  match format args, given (output args) with
  | Normal, _ | _, None => []
  | fmt, Some path =>
      match file_open env path with
      | Some _ => []
      | None =>
          [FileOpen path; FileWrite path (reaches env path (document fmt out))]
      end
  end.
Proof.
  unfold report.
  destruct (format args), (given (output args)) as [path|];
    first [apply file_events_saving | done | idtac];
    apply file_events_prints, text_of_shaped_prints.
Qed.

Section run_facts.
Context {datetime : Type}.
Variable fromisoformat : string → option datetime.
Variable strftime : datetime → string.
Variable strip lower : string → string.

Local Abbreviation process_victims :=
  (process_victims fromisoformat strftime).
Local Abbreviation main := (main fromisoformat strftime strip lower).

(** X14.  The file events of a run, all of them and in order.  A run
    touches a file only when records were fetched, the format is [json] or
    [csv], a non-empty [--output] path is given and the file at that path
    can be opened.  It is then opened once, which creates or empties it,
    and what reaches it is the whole document (the serialised JSON output
    or the CSV text) when the write completes and what the failing write
    left otherwise.  The fetch and the [normal] format never touch a
    file. *)
Theorem file_written_only_on_request env args :
  let victims :=
    (get_victims_by_group env (lower (strip (group args)))).2 in
  file_events (trace (main env args)) =
  file_effects env args victims (shape (process_victims victims)).
Proof.
  csimpl. unfold file_effects.
  destruct (decide ((get_victims_by_group env (lower (strip (group args)))).2
                    = [])) as [Hnone|Hsome].
  - rewrite (main_no_records fromisoformat strftime strip lower env args Hnone).
    rewrite Hnone. csimpl. apply file_events_prints. intros ev.
    rewrite elem_of_cons, elem_of_app, list_elem_of_singleton.
    intros [->|[?%fetch_prints| ->]]; [by eexists | done | by eexists].
  - rewrite (main_report fromisoformat strftime strip lower env args Hsome).
    csimpl. change (print ?x :: ?t) with ([print x] ++ t).
    rewrite !file_events_app, file_events_report.
    rewrite (file_events_prints (_.1)) by apply fetch_prints.
    destruct (get_victims_by_group env (lower (strip (group args)))).2
      as [|v vs]; [done|].
    by destruct (format args), (given (output args)).
Qed.

(** X15.  When the output file cannot be opened, the run reports it and
    ends normally: after the lines of the fetch it prints the one message
    that carries the text of the exception, for the format chosen, and no
    file is touched. *)
Theorem open_failure_reported env args path e :
  let victims :=
    (get_victims_by_group env (lower (strip (group args)))).2 in
  victims ≠ [] → format args ≠ Normal → given (output args) = Some path →
  file_open env path = Some e →
  main env args =
  {| trace :=
       print (searching_message (lower (strip (group args))))
         :: (get_victims_by_group env (lower (strip (group args)))).1
         ++ [print (match format args with
                    | Csv => "An error occurred while writing the CSV file: "
                    | _ => "An error occurred while writing the JSON file: "
                    end +:+ e)];
     aggregated := Some (process_victims victims) |}.
Proof.
  csimpl. intros Hsome Hfmt Hpath Hfail.
  rewrite (main_report fromisoformat strftime strip lower env args Hsome).
  csimpl. do 3 f_equal. unfold report, saving.
  rewrite Hpath, Hfail. by destruct (format args).
Qed.

(** X17.  When the output file is opened and writing to it fails, the run
    does not clean up: the file stays as the failing write left it,
    created or emptied by the opening and holding what had reached it.
    The run reports the failure with the one message that carries the
    text of the exception, prints no message of success and ends
    normally. *)
Theorem write_failure_leaves_file env args path reached e :
  let victims :=
    (get_victims_by_group env (lower (strip (group args)))).2 in
  victims ≠ [] → format args ≠ Normal → given (output args) = Some path →
  file_open env path = None →
  file_write env path
    (document (format args) (shape (process_victims victims)))
    = WriteRaises reached e →
  main env args =
  {| trace :=
       print (searching_message (lower (strip (group args))))
         :: (get_victims_by_group env (lower (strip (group args)))).1
         ++ [FileOpen path; FileWrite path reached;
             print (match format args with
                    | Csv => "An error occurred while writing the CSV file: "
                    | _ => "An error occurred while writing the JSON file: "
                    end +:+ e)];
     aggregated := Some (process_victims victims) |}.
Proof.
  csimpl. intros Hsome Hfmt Hpath Hopen Hfail.
  rewrite (main_report fromisoformat strftime strip lower env args Hsome).
  csimpl. do 3 f_equal. unfold report, saving.
  rewrite Hpath, Hopen. destruct (format args); [done| |]; by rewrite Hfail.
Qed.
End run_facts.

(** * Concrete runs *)

(** The scenario of the specification. *)
Example process_victims_scenario :
  run_process_victims sample_victims = sample_aggregation.
Proof. vm_compute. reflexivity. Qed.

(** Reversing the input changes the order of the months in the dictionary,
    not the counts. *)
Example reversed_scenario_months :
  od_keys (run_process_victims (reverse sample_victims)) =
  ["2023-02"; "2023-01"].
Proof. vm_compute. reflexivity. Qed.

(** A record without [discovered] is dropped. *)
Example process_victims_drops_bare :
  run_process_victims (sample_victims ++ [∅]) = sample_aggregation.
Proof. vm_compute. reflexivity. Qed.

Lemma process_victims_totals_witness :
  od_lookup "2023-01" (run_process_victims sample_victims)
    = Some (month_table (take 2 sample_victims)) ∧
  counter_sum (sectors (month_table (take 2 sample_victims))) = 2.
Proof.
  split; [vm_compute; reflexivity|].
  apply (process_victims_totals Calendar.fromisoformat Calendar.strftime
           sample_victims "2023-01" (month_table (take 2 sample_victims))).
  vm_compute. reflexivity.
Defined.

Lemma process_victims_skips_undated_witness :
  run_process_victims (take 1 sample_victims ++ unparsable_record
                         :: drop 1 sample_victims)
  = run_process_victims (take 1 sample_victims ++ drop 1 sample_victims).
Proof.
  apply (process_victims_skips_undated Calendar.fromisoformat
           Calendar.strftime unparsable_record).
  right. right. exists "soon". split; vm_compute; reflexivity.
Defined.

Lemma not_identified_default_witness :
  ∃ e, od_lookup "2023-03" (run_process_victims [bare_record]) = Some e ∧
       counter_get "Not Identified" (sectors e) = 1 ∧
       counter_get "Not Identified" (countries e) = 1.
Proof.
  destruct (not_identified_default Calendar.fromisoformat Calendar.strftime
              [bare_record] bare_record "2023-03")
    as (e & He & _ & Hs & Hc & _).
  - apply list_elem_of_here.
  - vm_compute. reflexivity.
  - exists e. split; [exact He|]. split; [apply Hs | apply Hc].
Defined.

Lemma process_victims_permutation_witness :
  aggregation_counts (run_process_victims sample_victims) =
  aggregation_counts (run_process_victims (reverse sample_victims)).
Proof.
  apply (process_victims_permutation Calendar.fromisoformat Calendar.strftime).
  symmetry. apply reverse_Permutation.
Defined.

Lemma top_lists_ranked_witness :
  ∃ s,
    od_lookup "2023-02"
      (build_json_output (run_process_victims tie_victims)).1 = Some s ∧
    ranked_top 10
      (sector_of <$> month_victims Calendar.fromisoformat Calendar.strftime
                       "2023-02" tie_victims)
      (sector_pairs (top_sectors s)).
Proof.
  destruct (top_lists_ranked Calendar.fromisoformat Calendar.strftime
              tie_victims "2023-02") as (s & Hs & Hranked & _).
  - vm_compute. apply list_elem_of_further, list_elem_of_here.
  - exists s. split; [exact Hs | exact Hranked].
Defined.

(** The tie between two sectors of February is decided by the records of
    February: "Finance" comes first there, although "Energy" is met
    earlier in the input, in a record of January. *)
Example tie_break_within_month :
  od_lookup "2023-02" (build_json_output (run_process_victims tie_victims)).1
    = Some tie_february ∧
  first_index "Energy" (sector_of <$> tie_victims)
    < first_index "Finance" (sector_of <$> tie_victims).
Proof. split; vm_compute; [reflexivity | lia]. Qed.

(** On the answer 404 the run prints three lines and ends; the group name
    given is already trimmed and in lower case. *)
Lemma no_records_no_report_witness :
  main Calendar.fromisoformat Calendar.strftime id id not_found
    sample_arguments =
    {| trace := [print (searching_message "lockbit"); print "Error: 404";
                 print no_victims_message];
       aggregated := None |} ∧
  ∀ path content,
    (FileOpen path
     ∉ trace (main Calendar.fromisoformat Calendar.strftime id id not_found
                sample_arguments)) ∧
    (FileWrite path content
     ∉ trace (main Calendar.fromisoformat Calendar.strftime id id not_found
                sample_arguments)).
Proof.
  apply (proj1 (proj2 (no_records_no_report Calendar.fromisoformat
                         Calendar.strftime id id not_found sample_arguments))).
  vm_compute. reflexivity.
Defined.

(** On the scenario the run goes on to render: in the CSV format with a
    path it saves the report of the two months. *)
Example scenario_run :
  main Calendar.fromisoformat Calendar.strftime id id scenario_world
    sample_arguments =
  {| trace :=
       [print (searching_message "lockbit");
        FileOpen "report.csv";
        FileWrite "report.csv"
          (header_line
             +:+ "2023-01,2,Healthcare: 2,US (2): [Healthcare: 2]"
             +:+ CR +:+ LF
             +:+ "2023-02,1,Finance: 1,DE (1): [Finance: 1]" +:+ CR +:+ LF);
        print "CSV output successfully saved to: report.csv"];
     aggregated := Some sample_aggregation |}.
Proof. vm_compute. reflexivity. Qed.



(** The CSV report of the scenario. *)
Example csv_scenario :
  csv_text (csv_rows (build_json_output sample_aggregation).1) =
  header_line
    +:+ "2023-01,2,Healthcare: 2,US (2): [Healthcare: 2]" +:+ CR +:+ LF
    +:+ "2023-02,1,Finance: 1,DE (1): [Finance: 1]" +:+ CR +:+ LF.
Proof. vm_compute. reflexivity. Qed.

(** On an aggregation that was not built by [process_victims] a presenter
    can insert entries: the lookup of a country without a sector table
    adds an empty one. *)
Example lookup_inserts_default :
  (build_json_output
     [("2023-01", {| total := 1; sectors := [("Energy", 1)];
                     countries := [("US", 1)]; country_sectors := [] |})]).2
  = [("2023-01", {| total := 1; sectors := [("Energy", 1)];
                    countries := [("US", 1)];
                    country_sectors := [("US", [])] |})].
Proof. vm_compute. reflexivity. Qed.

(** * Concrete runs of the further properties *)

Lemma aggregation_insertion_order_witness :
  od_keys (sectors (month_table (take 2 sample_victims))) =
  first_seen
    (sector_of <$> month_victims Calendar.fromisoformat Calendar.strftime
                     "2023-01" sample_victims).
Proof.
  apply (proj2 (aggregation_insertion_order Calendar.fromisoformat
                  Calendar.strftime sample_victims) "2023-01"
           (month_table (take 2 sample_victims))).
  vm_compute. reflexivity.
Defined.

Lemma aggregation_entries_positive_witness :
  1 ≤ total (month_table (take 2 sample_victims)).
Proof.
  apply (aggregation_entries_positive Calendar.fromisoformat Calendar.strftime
           sample_victims "2023-01" (month_table (take 2 sample_victims))).
  vm_compute. reflexivity.
Defined.

Lemma only_three_fields_matter_witness :
  run_process_victims [named_record] = run_process_victims [bare_record].
Proof.
  apply (only_three_fields_matter Calendar.fromisoformat Calendar.strftime).
  constructor; [|constructor].
  split; [|split]; vm_compute; reflexivity.
Defined.

Lemma json_output_months_witness :
  od_keys (build_json_output open_aggregation).1
  = sorted (od_keys open_aggregation).
Proof.
  apply (json_output_months open_aggregation).
  vm_compute. apply NoDup_singleton.
Defined.

Lemma json_builder_only_adds_empty_tables_witness :
  od_keys (build_json_output open_aggregation).2 = od_keys open_aggregation.
Proof.
  apply (json_builder_only_adds_empty_tables open_aggregation).
  vm_compute. apply NoDup_singleton.
Defined.

Lemma json_builder_repeatable_witness :
  build_json_output (build_json_output open_aggregation).2
  = build_json_output open_aggregation.
Proof.
  apply (json_builder_repeatable open_aggregation).
  vm_compute. apply NoDup_singleton.
Defined.

Lemma text_report_of_json_output_witness :
  print_monthly_summary open_aggregation =
  (text_of_shaped (build_json_output open_aggregation).1,
   (build_json_output open_aggregation).2).
Proof.
  apply (text_report_of_json_output open_aggregation).
  vm_compute. apply NoDup_singleton.
Defined.

Lemma report_bounds_witness :
  length (top_sectors tie_february) ≤ 10 ∧
  (counter_sum (sector_pairs (top_sectors tie_february))
     = total_victims tie_february ↔
   length (first_seen
             (sector_of <$> month_victims Calendar.fromisoformat
                              Calendar.strftime "2023-02" tie_victims)) ≤ 10).
Proof.
  destruct (report_bounds Calendar.fromisoformat Calendar.strftime
              tie_victims "2023-02" tie_february)
    as (Hlen & _ & _ & _ & Hsum & _).
  - vm_compute. reflexivity.
  - split; [exact Hlen | exact Hsum].
Defined.

Lemma report_parts_nonempty_witness : 1 ≤ total_victims tie_february.
Proof.
  apply (report_parts_nonempty Calendar.fromisoformat Calendar.strftime
           tie_victims "2023-02" tie_february).
  vm_compute. reflexivity.
Defined.

(** The files of three runs on the scenario: saved whole, not opened, and
    left with the five characters that had reached it. *)
Example files_of_runs :
  file_events
    (trace (main Calendar.fromisoformat Calendar.strftime id id
              scenario_world sample_arguments)) =
    [FileOpen "report.csv";
     FileWrite "report.csv"
       (csv_text (csv_rows (build_json_output sample_aggregation).1))] ∧
  file_events
    (trace (main Calendar.fromisoformat Calendar.strftime id id
              read_only_world sample_arguments)) = [] ∧
  file_events
    (trace (main Calendar.fromisoformat Calendar.strftime id id
              full_disk_world sample_arguments)) =
    [FileOpen "report.csv"; FileWrite "report.csv" "Month"].
Proof. vm_compute. split_and!; reflexivity. Qed.

Lemma open_failure_reported_witness :
  main Calendar.fromisoformat Calendar.strftime id id read_only_world
    sample_arguments =
  {| trace :=
       [print (searching_message "lockbit");
        print ("An error occurred while writing the CSV file: "
                 +:+ "Permission denied")];
     aggregated := Some (run_process_victims sample_victims) |}.
Proof.
  apply (open_failure_reported Calendar.fromisoformat Calendar.strftime
           id id read_only_world sample_arguments "report.csv"
           "Permission denied").
  - vm_compute. discriminate.
  - discriminate.
  - reflexivity.
  - reflexivity.
Defined.

Lemma write_failure_leaves_file_witness :
  main Calendar.fromisoformat Calendar.strftime id id full_disk_world
    sample_arguments =
  {| trace :=
       [print (searching_message "lockbit");
        FileOpen "report.csv"; FileWrite "report.csv" "Month";
        print ("An error occurred while writing the CSV file: "
                 +:+ "No space left on device")];
     aggregated := Some (run_process_victims sample_victims) |}.
Proof.
  apply (write_failure_leaves_file Calendar.fromisoformat Calendar.strftime
           id id full_disk_world sample_arguments "report.csv" "Month"
           "No space left on device").
  - vm_compute. discriminate.
  - discriminate.
  - reflexivity.
  - reflexivity.
  - vm_compute. reflexivity.
Defined.

Lemma report_of_permuted_input_witness :
  od_keys (build_json_output (run_process_victims sample_victims)).1 =
  od_keys (build_json_output (run_process_victims (reverse sample_victims))).1.
Proof.
  apply (report_of_permuted_input Calendar.fromisoformat Calendar.strftime).
  symmetry. apply reverse_Permutation.
Defined.
